(** * MinPlayer: the playback / playlist state machine

    A shallow embedding of [src/utils/AudioEngine.ts]: the class
    [AudioEngine] and the [App] component that drives it (playlist,
    current-track pointer, selection, object-URL life cycle, asynchronous
    track loading).

    Modelling conventions.
    - JavaScript numbers used as indices are [Z].  Times and volumes are
      [Q]: the code compares them and adds or subtracts constants, and the
      finite JavaScript numbers are rationals.
    - Strings are [string]; [toLowerCase] acts on the ASCII letters.
    - React state ([useState]) and refs ([useRef]) are fields of one record
      [State]; a state setter is a field update, applied when it is called.
      [playlistRef] and [indexRef] mirror [playlist] and [currentIndex] and
      are read as these fields.  A handler sees the state of the latest
      render, except the handlers installed by the mount-time effect, which
      call the [playTrack] of the first render.
    - The platform the code talks to is explicit state: the blob-URL store
      ([URL.createObjectURL] / [URL.revokeObjectURL]), the paths handed to
      [readFile], the pending timers, and the calls made on the native
      audio element.
    - An [async] function is cut at its [await]s: the part before the first
      [await] is a function on [State]; what is suspended is a [Task] in
      the field [pending]; the platform settles a pending task later, with
      success or failure, and the continuation runs then.
    - Console output, rendering and the formatting of times are left
      out. *)

From Stdlib Require Import QArith Lqa Ascii String.
From stdpp Require Import gmap strings list sorting.

Local Open Scope Z_scope.

(** Statements of a handler are read top to bottom: [s |> f |> g]. *)
Notation "s |> f" := (f s) (at level 45, left associativity, only parsing).

(** ** Helper functions on paths *)

Definition toLowerCase_ascii (c : ascii) : ascii :=
  let n := nat_of_ascii c in
  if ((65 <=? n) && (n <=? 90))%nat then ascii_of_nat (n + 32) else c.

Fixpoint toLowerCase (s : string) : string :=
  match s with
  | EmptyString => EmptyString
  | String c s' => String (toLowerCase_ascii c) (toLowerCase s')
  end.

Definition endsWith (s suffix : string) : bool :=
  String.prefix (String.rev suffix) (String.rev s).

Definition validExtensions : list string :=
  [".mp3"; ".m4a"; ".flac"; ".wav"; ".ogg"; ".opus"; ".aac"; ".wma"]%string.

(** [validExtensions.some(ext => path.toLowerCase().endsWith(ext))] *)
Definition isValidAudioFile (path : string) : bool :=
  existsb (fun ext => endsWith (toLowerCase path) ext) validExtensions.

(** [s.split(sep)] for a one-character separator. *)
Fixpoint split (sep : ascii) (s : string) : list string :=
  match s with
  | EmptyString => [EmptyString]
  | String c s' =>
      if Ascii.eqb c sep then EmptyString :: split sep s'
      else match split sep s' with
           | seg :: segs => String c seg :: segs
           | [] => [String c EmptyString]
           end
  end.

Definition mimeTypes : list (string * string) :=
  [("mp3", "audio/mpeg"); ("m4a", "audio/mp4"); ("flac", "audio/flac");
   ("wav", "audio/wav"); ("ogg", "audio/ogg"); ("opus", "audio/opus");
   ("aac", "audio/aac"); ("wma", "audio/x-ms-wma")]%string.

Fixpoint assoc (k : string) (l : list (string * string)) : option string :=
  match l with
  | [] => None
  | (k', v) :: l' => if String.eqb k k' then Some v else assoc k l'
  end.

(** [mimeTypes[path.toLowerCase().split('.').pop() || ''] || 'audio/mpeg'] *)
Definition getMimeType (path : string) : string :=
  let ext := List.last (split "." (toLowerCase path)) EmptyString in
  match assoc ext mimeTypes with
  | Some m => m
  | None => "audio/mpeg"%string
  end.

(** ** [Math.max] and [Math.min] on finite numbers *)

Definition Math_max (a b : Q) : Q := if Qle_bool a b then b else a.
Definition Math_min (a b : Q) : Q := if Qle_bool a b then a else b.

(** ** class [AudioEngine] *)

Module AudioEngine.

(** Calls made on the native [HTMLAudioElement]. *)
Inductive NativeCall := native_load | native_play | native_pause.

(** The native element as the class writes it: the properties it assigns
    and the methods it calls, oldest call first. *)
Record t := mk {
  src : option nat;
  volume : Q;
  currentTime : Q;
  calls : list NativeCall
}.

(** [new Audio()]: no source, full volume, position 0. *)
Definition new : t :=
  {| src := None; volume := 1%Q; currentTime := 0%Q; calls := [] |}.

Definition load (url : nat) (a : t) : t :=
  {| src := Some url; volume := volume a; currentTime := currentTime a;
     calls := calls a ++ [native_load] |}.

(** [play()] returns the promise of the native call; the caller suspends
    on it. *)
Definition play (a : t) : t :=
  {| src := src a; volume := volume a; currentTime := currentTime a;
     calls := calls a ++ [native_play] |}.

Definition pause (a : t) : t :=
  {| src := src a; volume := volume a; currentTime := currentTime a;
     calls := calls a ++ [native_pause] |}.

Definition setVolume (v : Q) (a : t) : t :=
  {| src := src a; volume := Math_max 0 (Math_min 1 v);
     currentTime := currentTime a; calls := calls a |}.

Definition seek (time : Q) (a : t) : t :=
  {| src := src a; volume := volume a; currentTime := time;
     calls := calls a |}.

End AudioEngine.

(** ** Data model of [App] *)

Record Track := mkTrack {
  path : string;
  title : string;
  artist : option string;
  cover : option string;
  track_duration : option Q
}.

(** A [Blob] built from the bytes [readFile] returned for a path; the
    bytes are identified by the path they were read from. *)
Record Blob := mkBlob {
  blob_bytes_of : string;
  blob_type : string
}.

(** What a suspended computation waits for. *)
Inductive Task :=
| AwaitReadFile (track : Track) (vol : Q)
    (** [playTrack], at [await readFile(track.path)]; [vol] is the [volume]
        its closure captured *)
| AwaitPlay
    (** [playTrack], at [await audioEngine.play()] *)
| AwaitResume.
    (** [togglePlay], at [audioEngine.play().then(...).catch(...)] *)

Record State := mkState {
  (* useState *)
  isPlaying : bool;
  playlist : list Track;
  currentIndex : Z;
  currentTime : Q;
  duration : Q;
  volume : Q;
  errorMessage : option string;
  selectedIndices : gset Z;
  (* useRef *)
  currentObjectUrlRef : option nat;
  audioEngine : AudioEngine.t;
  (* platform *)
  objectUrls : gmap nat Blob;   (* live object URLs *)
  nextUrl : nat;                (* the next URL [createObjectURL] returns *)
  reads : list string;          (* paths handed to [readFile], oldest first *)
  pending : list Task;          (* suspended computations, oldest first *)
  timers : list Z               (* delays of the pending [setTimeout]s; every
                                   callback is [setErrorMessage(null)] *)
}.

(** The state of the first render. *)
Definition initial : State :=
  {| isPlaying := false; playlist := []; currentIndex := -1;
     currentTime := 0%Q; duration := 0%Q; volume := 1%Q;
     errorMessage := None; selectedIndices := ∅;
     currentObjectUrlRef := None; audioEngine := AudioEngine.new;
     objectUrls := ∅; nextUrl := 0%nat; reads := []; pending := [];
     timers := [] |}.

(** *** Field updates *)

Definition setIsPlaying (b : bool) (s : State) : State :=
  mkState b (playlist s) (currentIndex s) (currentTime s) (duration s)
    (volume s) (errorMessage s) (selectedIndices s) (currentObjectUrlRef s)
    (audioEngine s) (objectUrls s) (nextUrl s) (reads s) (pending s) (timers s).

Definition setPlaylist (l : list Track) (s : State) : State :=
  mkState (isPlaying s) l (currentIndex s) (currentTime s) (duration s)
    (volume s) (errorMessage s) (selectedIndices s) (currentObjectUrlRef s)
    (audioEngine s) (objectUrls s) (nextUrl s) (reads s) (pending s) (timers s).

Definition setCurrentIndex (i : Z) (s : State) : State :=
  mkState (isPlaying s) (playlist s) i (currentTime s) (duration s)
    (volume s) (errorMessage s) (selectedIndices s) (currentObjectUrlRef s)
    (audioEngine s) (objectUrls s) (nextUrl s) (reads s) (pending s) (timers s).

Definition setCurrentTime (t : Q) (s : State) : State :=
  mkState (isPlaying s) (playlist s) (currentIndex s) t (duration s)
    (volume s) (errorMessage s) (selectedIndices s) (currentObjectUrlRef s)
    (audioEngine s) (objectUrls s) (nextUrl s) (reads s) (pending s) (timers s).

Definition setDuration (d : Q) (s : State) : State :=
  mkState (isPlaying s) (playlist s) (currentIndex s) (currentTime s) d
    (volume s) (errorMessage s) (selectedIndices s) (currentObjectUrlRef s)
    (audioEngine s) (objectUrls s) (nextUrl s) (reads s) (pending s) (timers s).

Definition setVolume (v : Q) (s : State) : State :=
  mkState (isPlaying s) (playlist s) (currentIndex s) (currentTime s)
    (duration s) v (errorMessage s) (selectedIndices s)
    (currentObjectUrlRef s) (audioEngine s) (objectUrls s) (nextUrl s)
    (reads s) (pending s) (timers s).

Definition setErrorMessage (m : option string) (s : State) : State :=
  mkState (isPlaying s) (playlist s) (currentIndex s) (currentTime s)
    (duration s) (volume s) m (selectedIndices s) (currentObjectUrlRef s)
    (audioEngine s) (objectUrls s) (nextUrl s) (reads s) (pending s) (timers s).

Definition setSelectedIndices (sel : gset Z) (s : State) : State :=
  mkState (isPlaying s) (playlist s) (currentIndex s) (currentTime s)
    (duration s) (volume s) (errorMessage s) sel (currentObjectUrlRef s)
    (audioEngine s) (objectUrls s) (nextUrl s) (reads s) (pending s) (timers s).

Definition setCurrentObjectUrlRef (r : option nat) (s : State) : State :=
  mkState (isPlaying s) (playlist s) (currentIndex s) (currentTime s)
    (duration s) (volume s) (errorMessage s) (selectedIndices s) r
    (audioEngine s) (objectUrls s) (nextUrl s) (reads s) (pending s) (timers s).

(** A method call on the engine. *)
Definition onAudioEngine (f : AudioEngine.t → AudioEngine.t) (s : State) : State :=
  mkState (isPlaying s) (playlist s) (currentIndex s) (currentTime s)
    (duration s) (volume s) (errorMessage s) (selectedIndices s)
    (currentObjectUrlRef s) (f (audioEngine s)) (objectUrls s) (nextUrl s)
    (reads s) (pending s) (timers s).

Definition setPending (p : list Task) (s : State) : State :=
  mkState (isPlaying s) (playlist s) (currentIndex s) (currentTime s)
    (duration s) (volume s) (errorMessage s) (selectedIndices s)
    (currentObjectUrlRef s) (audioEngine s) (objectUrls s) (nextUrl s)
    (reads s) p (timers s).

Definition setTimers (t : list Z) (s : State) : State :=
  mkState (isPlaying s) (playlist s) (currentIndex s) (currentTime s)
    (duration s) (volume s) (errorMessage s) (selectedIndices s)
    (currentObjectUrlRef s) (audioEngine s) (objectUrls s) (nextUrl s)
    (reads s) (pending s) t.

(** *** Platform calls *)

(** [URL.revokeObjectURL(u)] *)
Definition revokeObjectURL (u : nat) (s : State) : State :=
  mkState (isPlaying s) (playlist s) (currentIndex s) (currentTime s)
    (duration s) (volume s) (errorMessage s) (selectedIndices s)
    (currentObjectUrlRef s) (audioEngine s) (delete u (objectUrls s))
    (nextUrl s) (reads s) (pending s) (timers s).

(** [URL.createObjectURL(blob)]: the URL returned is [nextUrl s]. *)
Definition createObjectURL (b : Blob) (s : State) : State :=
  mkState (isPlaying s) (playlist s) (currentIndex s) (currentTime s)
    (duration s) (volume s) (errorMessage s) (selectedIndices s)
    (currentObjectUrlRef s) (audioEngine s) (<[nextUrl s := b]> (objectUrls s))
    (S (nextUrl s)) (reads s) (pending s) (timers s).

(** [readFile(p)] is called; its promise is awaited by the caller. *)
Definition readFile (p : string) (s : State) : State :=
  mkState (isPlaying s) (playlist s) (currentIndex s) (currentTime s)
    (duration s) (volume s) (errorMessage s) (selectedIndices s)
    (currentObjectUrlRef s) (audioEngine s) (objectUrls s) (nextUrl s)
    (reads s ++ [p]) (pending s) (timers s).

(** The running computation suspends on a promise. *)
Definition await (t : Task) (s : State) : State :=
  setPending (pending s ++ [t]) s.

(** [setTimeout(() => setErrorMessage(null), ms)] *)
Definition setTimeout (ms : Z) (s : State) : State :=
  setTimers (timers s ++ [ms]) s.

(** Functional updaters [setX(prev => f(prev))]. *)
Definition updPlaylist (f : list Track → list Track) (s : State) : State :=
  setPlaylist (f (playlist s)) s.
Definition updCurrentIndex (f : Z → Z) (s : State) : State :=
  setCurrentIndex (f (currentIndex s)) s.
Definition updCurrentTime (f : Q → Q) (s : State) : State :=
  setCurrentTime (f (currentTime s)) s.
Definition updSelectedIndices (f : gset Z → gset Z) (s : State) : State :=
  setSelectedIndices (f (selectedIndices s)) s.

(** ** [playTrack] *)

Definition len (l : list Track) : Z := Z.of_nat (length l).

(** [if (currentObjectUrlRef.current) { URL.revokeObjectURL(...); ... = null }] *)
Definition revokeCurrent (s : State) : State :=
  match currentObjectUrlRef s with
  | Some u => s |> revokeObjectURL u |> setCurrentObjectUrlRef None
  | None => s
  end.

(** The [catch] block of [playTrack]. *)
Definition failedToLoad (s : State) : State :=
  s |> setErrorMessage (Some "Failed to load audio file"%string)
    |> setTimeout 3000
    |> setIsPlaying false.

(** [playTrack(index, currentList)] up to its first [await].  [vol] is the
    [volume] captured by the closure that is called; [await import(...)]
    and [await readFile(...)] are one suspension. *)
Definition playTrack (vol : Q) (index : Z) (currentList : list Track)
    (s : State) : State :=
  if (index <? 0) || (index >=? len currentList) then s
  else
    match currentList !! Z.to_nat index with
    | None => s
    | Some track =>
        if negb (isValidAudioFile (path track)) then
          s |> setErrorMessage (Some "Invalid audio file type"%string)
            |> setTimeout 3000
        else
          s |> setCurrentIndex index
            |> revokeCurrent
            |> readFile (path track)
            |> await (AwaitReadFile track vol)
    end.

(** The continuation of a suspended computation, run when its promise is
    fulfilled ([ok = true]) or rejected ([ok = false]). *)
Definition resume (t : Task) (ok : bool) (s : State) : State :=
  match t with
  | AwaitReadFile track vol =>
      if ok then
        let url := nextUrl s in
        s |> createObjectURL (mkBlob (path track) (getMimeType (path track)))
          |> setCurrentObjectUrlRef (Some url)
          |> onAudioEngine (AudioEngine.load url)
          |> onAudioEngine (AudioEngine.setVolume vol)
          |> onAudioEngine AudioEngine.play
          |> await AwaitPlay
      else failedToLoad s
  | AwaitPlay =>
      if ok then s |> setIsPlaying true |> setErrorMessage None
      else failedToLoad s
  | AwaitResume =>
      if ok then setIsPlaying true s else setIsPlaying false s
  end.

(** The platform settles the [k]-th pending promise. *)
Definition settle (k : nat) (ok : bool) (s : State) : State :=
  match pending s !! k with
  | None => s
  | Some t => s |> setPending (delete k (pending s)) |> resume t ok
  end.

(** A pending timer fires: [setErrorMessage(null)]. *)
Definition timeout (k : nat) (s : State) : State :=
  match timers s !! k with
  | None => s
  | Some _ => s |> setTimers (delete k (timers s)) |> setErrorMessage None
  end.

(** ** [togglePlay] *)

Definition togglePlay (s : State) : State :=
  if isPlaying s then
    s |> onAudioEngine AudioEngine.pause |> setIsPlaying false
  else if (currentIndex s =? -1) && (len (playlist s) >? 0) then
    playTrack (volume s) 0 (playlist s) s
  else
    s |> onAudioEngine AudioEngine.play |> await AwaitResume.

(** ** Selection and deletion *)

Definition handlePlaylistItemClick (index : Z) (modifier : bool)
    (s : State) : State :=
  if modifier then
    updSelectedIndices
      (fun prev => if decide (index ∈ prev) then prev ∖ {[index]}
                   else prev ∪ {[index]}) s
  else
    s |> playTrack (volume s) index (playlist s) |> setSelectedIndices ∅.

(** [l.splice(idx, 1)]: a negative [idx] counts from the end, an [idx]
    past the end removes nothing. *)
Definition splice1 {A} (idx : Z) (l : list A) : list A :=
  let n := Z.of_nat (length l) in
  let start := if idx <? 0 then Z.max (n + idx) 0 else Z.min idx n in
  take (Z.to_nat start) l ++ drop (S (Z.to_nat start)) l.

(** [Array.from(selectedIndices).sort((a, b) => b - a)] *)
Definition indicesToDelete (sel : gset Z) : list Z :=
  merge_sort (flip Z.le) (elements sel).

(** The [for ... of] loop of the [setCurrentIndex] updater. *)
Fixpoint adjustLoop (prevIdx : Z) (deleted : list Z) (newIdx : Z) : Z :=
  match deleted with
  | [] => newIdx
  | deletedIdx :: rest =>
      if deletedIdx <? prevIdx then adjustLoop prevIdx rest (newIdx - 1)
      else if deletedIdx =? prevIdx then -1
      else adjustLoop prevIdx rest newIdx
  end.

Definition adjustIndex (deleted : list Z) (prevIdx : Z) : Z :=
  if prevIdx =? -1 then -1 else adjustLoop prevIdx deleted prevIdx.

Definition deleteSelectedTracks (s : State) : State :=
  if decide (size (selectedIndices s) = 0%nat) then s
  else
    let deleted := indicesToDelete (selectedIndices s) in
    s |> updPlaylist (fun prev => foldl (fun newPlaylist idx => splice1 idx newPlaylist) prev deleted)
      |> updCurrentIndex (adjustIndex deleted)
      |> setSelectedIndices ∅.

(** ** Notifications of the engine and the drop listener *)

(** The handlers installed by the mount-time effect call the [playTrack]
    of the first render, whose closure holds that render's [volume]. *)
Definition firstRenderVolume : Q := volume initial.

Definition onEnded (s : State) : State :=
  let currentPlaylist := playlist s in
  let currentIdx := currentIndex s in
  if (currentIdx <? 0) || (currentIdx >=? len currentPlaylist) then
    setIsPlaying false s
  else
    let nextIndex := currentIdx + 1 in
    if nextIndex <? len currentPlaylist then
      playTrack firstRenderVolume nextIndex currentPlaylist s
    else setIsPlaying false s.

(** The drop listener, from the moment the metadata of the batch is
    resolved.  [dropped] holds, for each dropped path in order, the track
    the metadata step builds for it. *)
Definition onDragDrop (dropped : list Track) (s : State) : State :=
  let newTracks := List.filter (fun t => isValidAudioFile (path t)) dropped in
  match newTracks with
  | [] => s
  | _ =>
      let prev := playlist s in
      let updated := prev ++ newTracks in
      let s' := setPlaylist updated s in
      if (len prev =? 0) && (len updated >? 0) then
        playTrack firstRenderVolume 0 updated s'
      else s'
  end.

(** ** Transport buttons, sliders and keyboard *)

Definition previousTrack (s : State) : State :=
  if currentIndex s >? 0 then playTrack (volume s) (currentIndex s - 1) (playlist s) s
  else s.

Definition nextTrack (s : State) : State :=
  if currentIndex s <? len (playlist s) - 1 then
    playTrack (volume s) (currentIndex s + 1) (playlist s) s
  else s.

Definition handleSeek (time : Q) (s : State) : State :=
  s |> onAudioEngine (AudioEngine.seek time) |> setCurrentTime time.

Definition handleVolume (v : Q) (s : State) : State :=
  s |> setVolume v |> onAudioEngine (AudioEngine.setVolume v).

Record KeyboardEvent := mkKey {
  targetIsInput : bool;   (* the target is an input or a textarea *)
  metaKey : bool;
  ctrlKey : bool;
  code : string
}.

Definition handleKeyDown (e : KeyboardEvent) (s : State) : State :=
  if targetIsInput e then s
  else if (metaKey e || ctrlKey e) && String.eqb (code e) "KeyA" then
    setSelectedIndices (list_to_set (seqZ 0 (len (playlist s)))) s
  else if String.eqb (code e) "Delete" || String.eqb (code e) "Backspace" then
    deleteSelectedTracks s
  else if String.eqb (code e) "Space" then togglePlay s
  else if String.eqb (code e) "ArrowLeft" then
    s |> onAudioEngine (AudioEngine.seek (currentTime s - 5)%Q)
      |> updCurrentTime (fun t => t - 5)%Q
  else if String.eqb (code e) "ArrowRight" then
    s |> onAudioEngine (AudioEngine.seek (currentTime s + 5)%Q)
      |> updCurrentTime (fun t => t + 5)%Q
  else if String.eqb (code e) "ArrowUp" then
    let vUp := Math_min 1 (volume s + 0.1)%Q in
    s |> setVolume vUp |> onAudioEngine (AudioEngine.setVolume vUp)
  else if String.eqb (code e) "ArrowDown" then
    let vDown := Math_max 0 (volume s - 0.1)%Q in
    s |> setVolume vDown |> onAudioEngine (AudioEngine.setVolume vDown)
  else s.

(** ** The event loop *)

Inductive Event :=
| EvDragDrop (dropped : list Track)
| EvClick (index : Z) (modifier : bool)
| EvPrevious
| EvNext
| EvTogglePlay
| EvKeyDown (e : KeyboardEvent)
| EvSeek (time : Q)
| EvVolume (v : Q)
| EvTimeUpdate (time : Q)
| EvDurationChange (d : Q)
| EvEnded
| EvSettle (k : nat) (ok : bool)
| EvTimeout (k : nat).

Definition handle (e : Event) (s : State) : State :=
  match e with
  | EvDragDrop dropped => onDragDrop dropped s
  | EvClick index modifier => handlePlaylistItemClick index modifier s
  | EvPrevious => previousTrack s
  | EvNext => nextTrack s
  | EvTogglePlay => togglePlay s
  | EvKeyDown e => handleKeyDown e s
  | EvSeek time => handleSeek time s
  | EvVolume v => handleVolume v s
  | EvTimeUpdate time => setCurrentTime time s
  | EvDurationChange d => setDuration d s
  | EvEnded => onEnded s
  | EvSettle k ok => settle k ok s
  | EvTimeout k => timeout k s
  end.

(** A click is a click on a rendered row. *)
Definition enabled (e : Event) (s : State) : Prop :=
  match e with
  | EvClick index _ => 0 ≤ index < len (playlist s)
  | _ => True
  end.

Definition run (es : list Event) (s : State) : State :=
  foldl (fun s e => handle e s) s es.

Inductive reachable : State → Prop :=
| reachable_initial : reachable initial
| reachable_step s e : reachable s → enabled e s → reachable (handle e s).

(** Tracks used in examples. *)
Definition track (p : string) : Track := mkTrack p p None None None.
Definition trackA := track "A.mp3".
Definition trackB := track "B.flac".
Definition trackC := track "C.ogg".

(** What the claims about deletion speak of: the tracks of [l], numbered
    from [i], whose index is not selected, and the number of selected
    indices among [i], ..., [i + k - 1]. *)
Fixpoint unselected {A} (sel : nat → bool) (i : nat) (l : list A) : list A :=
  match l with
  | [] => []
  | x :: l' => if sel i then unselected sel (S i) l'
               else x :: unselected sel (S i) l'
  end.

Fixpoint selectedFrom (sel : nat → bool) (i k : nat) : nat :=
  match k with
  | O => O
  | S k' => (if sel i then 1 else 0) + selectedFrom sel (S i) k'
  end.

Definition isSelected (sel : gset Z) (i : nat) : bool :=
  bool_decide (Z.of_nat i ∈ sel).

(** Positions deleted one after the other. *)
Definition deleteAll {A} (l : list A) (ns : list nat) : list A :=
  foldl (fun acc i => delete i acc) l ns.

(** A selection of playlist rows holds no negative index. *)
Definition nonnegative (sel : gset Z) : Prop := ∀ d, d ∈ sel → 0 ≤ d.

(** ** Invariants *)

Definition indexInRange (s : State) : Prop :=
  currentIndex s = -1 ∨ 0 ≤ currentIndex s < len (playlist s).

Definition playingHasTrack (s : State) : Prop :=
  isPlaying s = true → currentIndex s ≠ -1.

Definition selectionInRange (s : State) : Prop :=
  ∀ d, d ∈ selectedIndices s → 0 ≤ d < len (playlist s).

(** The completions among the events. *)
Definition isSettle (e : Event) : Prop :=
  match e with EvSettle _ _ => True | _ => False end.

(** ** Example states *)

(** Three tracks, the first one playing: a drop, then the completion of
    the read and of the play it starts. *)
Definition demo : State :=
  run [EvDragDrop [trackA; track "image.png"; trackB; trackC];
       EvSettle 0 true; EvSettle 0 true] initial.

(** The last track of the example playlist is playing. *)
Definition demoLast : State :=
  run [EvClick 2 false; EvSettle 0 true; EvSettle 0 true] demo.

(** The current track is selected in [demo] by a modified click. *)
Definition demoSelected : State := handle (EvClick 0 true) demo.

Definition keyArrowLeft : KeyboardEvent := mkKey false false false "ArrowLeft".
Definition keyDelete : KeyboardEvent := mkKey false false false "Delete".

(** Tracks 0 and 2 of [demo] are selected by modified clicks, then the
    Delete key is pressed. *)
Definition demoDeleted : State :=
  run [EvClick 0 true; EvClick 2 true; EvKeyDown keyDelete] demo.

(** From [demo]: [playTrack 1] (track B), then [playTrack 2] (track C) while
    the read of B is pending; the read of C and its play complete, then
    the read of B and its play. *)
Definition completions : list Event :=
  [EvSettle 1 true; EvSettle 1 true; EvSettle 0 true; EvSettle 0 true].

Definition superseded : State :=
  run completions
    (playTrack 1 2 (playlist demo) (playTrack 1 1 (playlist demo) demo)).

(** * Further definitions

    The unmount clean-up, the Media Session handlers, the tracks the drop
    listener builds from paths and metadata, and the predicates of the
    further properties. *)

(** ** Unmount *)

(** The clean-up of the mount-time effect: the held object URL, if any,
    is revoked; the ref is not reset. *)
Definition unmount (s : State) : State :=
  match currentObjectUrlRef s with
  | Some u => revokeObjectURL u s
  | None => s
  end.

(** ** Further invariants *)

Definition supported (t : Track) : Prop := isValidAudioFile (path t) = true.

(** The object URLs handed out so far are below [nextUrl]; the URL held
    by [currentObjectUrlRef] is live. *)
Definition urlsWellFormed (s : State) : Prop :=
  (∀ u, is_Some (objectUrls s !! u) → (u < nextUrl s)%nat)
  ∧ (∀ u, currentObjectUrlRef s = Some u → is_Some (objectUrls s !! u)).

(** A live object URL that is not the one held. *)
Definition leaked (u : nat) (s : State) : Prop :=
  is_Some (objectUrls s !! u) ∧ currentObjectUrlRef s ≠ Some u
  ∧ (u < nextUrl s)%nat.

(** Every live object URL is the one held. *)
Definition onlyHeldIsLive (s : State) : Prop :=
  ∀ u, is_Some (objectUrls s !! u) → currentObjectUrlRef s = Some u.

Definition keySelectAll : KeyboardEvent := mkKey false true false "KeyA".

(** What one event does to the platform side of the state: nothing; a
    load is started (the held URL is revoked); [playTrack] rejects an
    unsupported track of the playlist; a load or a play fails; a read
    completes (a URL is created and held); the message is cleared (by a
    completed play, or by a timer that fires). *)
Inductive platformStep (s s' : State) : Prop :=
| ps_quiet :
    objectUrls s' = objectUrls s → currentObjectUrlRef s' = currentObjectUrlRef s →
    nextUrl s' = nextUrl s → errorMessage s' = errorMessage s →
    timers s' = timers s → platformStep s s'
| ps_load_started :
    objectUrls s' = match currentObjectUrlRef s with
                    | Some h => delete h (objectUrls s)
                    | None => objectUrls s
                    end →
    currentObjectUrlRef s' = None →
    nextUrl s' = nextUrl s → errorMessage s' = errorMessage s →
    timers s' = timers s → platformStep s s'
| ps_rejected (t : Track) :
    t ∈ playlist s' → isValidAudioFile (path t) = false →
    objectUrls s' = objectUrls s → currentObjectUrlRef s' = currentObjectUrlRef s →
    nextUrl s' = nextUrl s →
    errorMessage s' = Some "Invalid audio file type"%string →
    timers s' = timers s ++ [3000] → platformStep s s'
| ps_failed :
    objectUrls s' = objectUrls s → currentObjectUrlRef s' = currentObjectUrlRef s →
    nextUrl s' = nextUrl s →
    errorMessage s' = Some "Failed to load audio file"%string →
    timers s' = timers s ++ [3000] → platformStep s s'
| ps_created (b : Blob) :
    objectUrls s' = <[nextUrl s := b]> (objectUrls s) →
    currentObjectUrlRef s' = Some (nextUrl s) →
    nextUrl s' = S (nextUrl s) → errorMessage s' = errorMessage s →
    timers s' = timers s → platformStep s s'
| ps_cleared :
    objectUrls s' = objectUrls s → currentObjectUrlRef s' = currentObjectUrlRef s →
    nextUrl s' = nextUrl s → errorMessage s' = None →
    (timers s' = timers s
     ∨ ∃ k, is_Some (timers s !! k) ∧ timers s' = delete k (timers s)) →
    platformStep s s'.

(** [demo] after [playTrack 1] and [playTrack 2] by plain clicks and the
    completion of the read of track C, the read of track B still pending. *)
Definition overlapping : State :=
  handle (EvSettle 1 true) (handle (EvClick 2 false) (handle (EvClick 1 false) demo)).

(** ** Media Session handlers *)



(** ** Tracks built from dropped paths *)

Record AudioMetadata := mkMetadata {
  meta_title : option string;
  meta_artist : option string;
  meta_album : option string;
  meta_duration : option Q;
  meta_cover : option string
}.

(** [a || b] where [a] is an optional string: an absent or empty [a]
    gives [b]. *)
Definition orElse (a : option string) (b : string) : string :=
  match a with
  | Some x => if String.eqb x "" then b else x
  | None => b
  end.

(** [s.split(re)] for a regular expression that matches one character of
    a class. *)
Fixpoint splitOn (isSep : ascii → bool) (s : string) : list string :=
  match s with
  | EmptyString => [EmptyString]
  | String c s' =>
      if isSep c then EmptyString :: splitOn isSep s'
      else match splitOn isSep s' with
           | seg :: segs => String c seg :: segs
           | [] => [String c EmptyString]
           end
  end.

(** The class of [/[\\/]/]: a backslash or a slash. *)
Definition isPathSeparator (c : ascii) : bool :=
  Ascii.eqb c "/" || Ascii.eqb c "\".

(** [s] cut at its last dot: what precedes it and what follows it. *)
Fixpoint cutAtLastDot (s : string) : option (string * string) :=
  match s with
  | EmptyString => None
  | String c s' =>
      match cutAtLastDot s' with
      | Some (pre, ext) => Some (String c pre, ext)
      | None => if Ascii.eqb c "." then Some (EmptyString, s') else None
      end
  end.

Fixpoint contains (c : ascii) (s : string) : bool :=
  match s with
  | EmptyString => false
  | String c' s' => Ascii.eqb c' c || contains c s'
  end.

(** [s.replace(/\.[^/.]+$/, "")]: the pattern matches a dot followed, up
    to the end of [s], by one or more characters other than a slash and
    a dot, so it can only match at the last dot of [s]. *)
Definition stripExtension (s : string) : string :=
  match cutAtLastDot s with
  | Some (pre, ext) =>
      if String.eqb ext "" || contains "/" ext then s else pre
  | None => s
  end.

(** [path.split(/[\\/]/).pop()?.replace(/\.[^/.]+$/, "") || "Unknown Track"] *)
Definition trackName (path : string) : string :=
  orElse (Some (stripExtension (List.last (splitOn isPathSeparator path) EmptyString)))
    "Unknown Track".

(** The track built for a path; [metadata] is [None] when [get_metadata]
    fails. *)
Definition buildTrack (path : string) (metadata : option AudioMetadata) : Track :=
  {| path := path;
     title := orElse (metadata ≫= meta_title) (trackName path);
     artist := Some (orElse (metadata ≫= meta_artist) "Unknown Artist");
     cover := metadata ≫= meta_cover;
     track_duration := metadata ≫= meta_duration |}.

(** The drop listener from the event on: the supported paths are kept,
    a track is built for each with the metadata [invoke] returns, and
    the batch is appended. *)
Definition onDropPaths (paths : list string) (invoke : string → option AudioMetadata)
    (s : State) : State :=
  let validPaths := List.filter isValidAudioFile paths in
  onDragDrop (List.map (fun p => buildTrack p (invoke p)) validPaths) s.

(** Track C of [demo] is playing and track A is selected. *)
Definition demoLastSelected : State := handle (EvClick 0 true) demoLast.

(** [demo] with the volume slider at 0.3. *)
Definition demoQuiet : State := handle (EvVolume 0.3) demo.

(** * Theorems *)

(** ** Theorems on [AudioEngine] *)

Lemma Math_clamp_cases (v : Q) :
  (Math_max 0 (Math_min 1 v) = 0%Q ∧ (v <= 0)%Q)
  ∨ (Math_max 0 (Math_min 1 v) = 1%Q ∧ (1 <= v)%Q)
  ∨ (Math_max 0 (Math_min 1 v) = v ∧ (0 <= v)%Q ∧ (v <= 1)%Q).
Proof.
  unfold Math_max, Math_min.
  destruct (Qle_bool 1 v) eqn:H1.
  - right; left. split; [reflexivity | by apply Qle_bool_iff].
  - assert (Hv1 : (v <= 1)%Q).
    { apply Qlt_le_weak, Qnot_le_lt. intros H. apply Qle_bool_iff in H. congruence. }
    destruct (Qle_bool 0 v) eqn:H0.
    + right; right. split; [reflexivity | split; [by apply Qle_bool_iff | done]].
    + left. split; [reflexivity |].
      apply Qlt_le_weak, Qnot_le_lt. intros H. apply Qle_bool_iff in H. congruence.
Qed.

(** C8. For every (finite) input [v], [setVolume v] applies a volume in
    [[0,1]]; [setVolume 1.5] applies [1] and [setVolume (-0.2)] applies
    [0]; and [setVolume] is idempotent: applying it to the volume it has
    just applied leaves the element unchanged. *)
Theorem setVolume_clamps_and_is_idempotent (v : Q) (a : AudioEngine.t) :
  let a' := AudioEngine.setVolume v a in
  (0 <= AudioEngine.volume a')%Q ∧ (AudioEngine.volume a' <= 1)%Q
  ∧ AudioEngine.volume (AudioEngine.setVolume 1.5 a) = 1%Q
  ∧ AudioEngine.volume (AudioEngine.setVolume (-0.2) a) = 0%Q
  ∧ AudioEngine.setVolume (AudioEngine.volume a') a' = a'.
Proof.
  cbn zeta. unfold AudioEngine.setVolume; cbn [AudioEngine.volume AudioEngine.src
    AudioEngine.currentTime AudioEngine.calls].
  repeat split; try reflexivity.
  - destruct (Math_clamp_cases v) as [[-> _]|[[-> _]|[-> [? ?]]]]; done.
  - destruct (Math_clamp_cases v) as [[-> _]|[[-> _]|[-> [? ?]]]]; done.
  - f_equal.
    destruct (Math_clamp_cases v) as [[-> _]|[[-> _]|[Hv [H0 H1]]]]; try reflexivity.
    rewrite Hv. exact Hv.
Qed.

(** ** Removing positions from a list *)

Section Removal.
Context {A : Type}.
Implicit Types (l pre post : list A) (sel : nat → bool) (ns : list nat).

Lemma list_delete_ge l i : (length l ≤ i)%nat → delete i l = l.
Proof.
  intros Hi. rewrite delete_take_drop, take_ge, drop_ge by lia.
  apply app_nil_r.
Qed.

Lemma splice1_nonneg (idx : Z) l :
  0 ≤ idx → splice1 idx l = delete (Z.to_nat idx) l.
Proof.
  intros Hidx. unfold splice1.
  destruct (Z.ltb_spec idx 0) as [|_]; [lia|].
  destruct (decide (idx < Z.of_nat (length l))) as [Hlt|Hge].
  - rewrite Z.min_l by lia. by rewrite delete_take_drop.
  - rewrite Z.min_r by lia. rewrite Nat2Z.id.
    rewrite take_ge, drop_ge, app_nil_r by lia.
    symmetry. apply list_delete_ge. lia.
Qed.

Lemma delete_app_lt pre post i :
  (i < length pre)%nat → delete i (pre ++ post) = delete i pre ++ post.
Proof.
  revert i. induction pre as [|x pre IH]; intros [|i] Hi; simpl in *; try lia; try done.
  f_equal. apply IH. lia.
Qed.

(** Deleting positions that all lie in a prefix leaves the rest alone. *)
Lemma deleteAll_app ns : ∀ pre post,
  StronglySorted (fun a b => b < a)%nat ns →
  Forall (fun n => n < length pre)%nat ns →
  deleteAll (pre ++ post) ns = deleteAll pre ns ++ post.
Proof.
  induction ns as [|n ns IH]; intros pre post Hs Hlt; [done|].
  apply StronglySorted_inv in Hs as [Hs Hn].
  apply Forall_cons in Hlt as [Hn' _].
  simpl. rewrite delete_app_lt by done. apply IH; [done|].
  rewrite length_delete by (by apply lookup_lt_is_Some).
  eapply Forall_impl; [exact Hn|]. simpl. lia.
Qed.

Lemma unselected_ext sel sel' l : ∀ i,
  (∀ j, i ≤ j < i + length l → sel j = sel' j)%nat →
  unselected sel i l = unselected sel' i l.
Proof.
  induction l as [|x l IH]; intros i H; [done|]. simpl in *.
  rewrite <- (H i) by lia. rewrite (IH (S i)); [done|].
  intros j Hj. apply H. lia.
Qed.

Lemma unselected_none sel l i :
  (∀ j, i ≤ j < i + length l → sel j = false)%nat → unselected sel i l = l.
Proof.
  revert i. induction l as [|x l IH]; intros i H; [done|]. simpl in *.
  rewrite H by lia. f_equal. apply IH. intros j Hj. apply H. lia.
Qed.

Lemma unselected_app sel pre post : ∀ i,
  unselected sel i (pre ++ post)
  = unselected sel i pre ++ unselected sel (i + length pre) post.
Proof.
  induction pre as [|x pre IH]; intros i; simpl.
  - by rewrite Nat.add_0_r.
  - rewrite IH. replace (S i + length pre)%nat with (i + S (length pre))%nat by lia.
    by destruct (sel i).
Qed.

(** Deleting a strictly descending list of positions, one [delete] after
    the other, removes exactly the elements at these positions. *)
Lemma deleteAll_unselected ns : ∀ l,
  StronglySorted (fun a b => b < a)%nat ns →
  deleteAll l ns = unselected (fun i => bool_decide (i ∈ ns)) 0 l.
Proof.
  induction ns as [|n ns IH]; intros l Hs.
  - symmetry. apply unselected_none. intros j _.
    apply bool_decide_eq_false_2, not_elem_of_nil.
  - apply StronglySorted_inv in Hs as [Hs Hn]. rewrite Forall_forall in Hn.
    simpl. destruct (decide (n < length l)%nat) as [Hlt|Hge].
    + destruct (lookup_lt_is_Some_2 l n Hlt) as [x Hx].
      rewrite <- (take_drop_middle l n x Hx) at 1 2.
      assert (Hlen : length (take n l) = n) by (rewrite length_take; lia).
      rewrite <- Hlen at 1. rewrite delete_middle.
      rewrite deleteAll_app; [|done|].
      2:{ rewrite Forall_forall. intros m Hm. rewrite Hlen. by apply Hn. }
      rewrite IH by done.
      rewrite unselected_app, Hlen. simpl.
      rewrite bool_decide_eq_true_2 by left.
      f_equal.
      * apply unselected_ext. intros j Hj. rewrite Hlen in Hj.
        apply bool_decide_ext. rewrite elem_of_cons.
        split; [by right | intros [->|?]; [lia | done]].
      * symmetry. apply unselected_none. intros j Hj.
        apply bool_decide_eq_false_2. rewrite elem_of_cons.
        intros [->|Hin]; [lia|]. apply Hn in Hin. lia.
    + rewrite list_delete_ge by lia. rewrite IH by done.
      apply unselected_ext. intros j Hj.
      apply bool_decide_ext. rewrite elem_of_cons.
      split; [by right | intros [->|?]; [lia | done]].
Qed.

End Removal.

Section Unselected.
Context {A : Type}.
Implicit Types (l : list A) (sel : nat → bool).

Lemma selectedFrom_le sel k : ∀ i, (selectedFrom sel i k ≤ k)%nat.
Proof.
  induction k as [|k IH]; intros i; simpl; [lia|].
  specialize (IH (S i)). destruct (sel i); lia.
Qed.

(** An element that is not selected moves down by the number of selected
    positions before it. *)
Lemma unselected_lookup sel k : ∀ l i,
  sel (i + k)%nat = false →
  unselected sel i l !! (k - selectedFrom sel i k)%nat = l !! k.
Proof.
  induction k as [|k IH]; intros l i Hk.
  - rewrite Nat.add_0_r in Hk. destruct l as [|x l]; simpl; [done|].
    by rewrite Hk.
  - destruct l as [|x l]; [done|]. simpl.
    replace (i + S k)%nat with (S i + k)%nat in Hk by lia.
    specialize (IH l (S i) Hk).
    pose proof (selectedFrom_le sel k (S i)) as Hle.
    destruct (sel i); simpl.
    + exact IH.
    + replace (S k - selectedFrom sel (S i) k)%nat
        with (S (k - selectedFrom sel (S i) k)) by lia.
      exact IH.
Qed.

Lemma unselected_length sel l : ∀ i,
  length (unselected sel i l) = (length l - selectedFrom sel i (length l))%nat.
Proof.
  induction l as [|x l IH]; intros i; simpl; [done|].
  pose proof (selectedFrom_le sel (length l) (S i)).
  destruct (sel i); simpl; rewrite IH; lia.
Qed.

End Unselected.

(** ** The sorted list of deleted indices *)

Lemma indicesToDelete_Permutation (sel : gset Z) :
  indicesToDelete sel ≡ₚ elements sel.
Proof. apply merge_sort_Permutation. Qed.

Lemma elem_of_indicesToDelete (sel : gset Z) (d : Z) :
  d ∈ indicesToDelete sel ↔ d ∈ sel.
Proof. by rewrite indicesToDelete_Permutation, elem_of_elements. Qed.

Lemma indicesToDelete_NoDup (sel : gset Z) : NoDup (indicesToDelete sel).
Proof. rewrite indicesToDelete_Permutation. apply NoDup_elements. Qed.

Lemma indicesToDelete_sorted (sel : gset Z) :
  StronglySorted (flip Z.le) (indicesToDelete sel).
Proof.
  apply StronglySorted_merge_sort.
  - intros x y z. unfold flip. lia.
  - intros x y. unfold flip. lia.
Qed.

(** Distinct and sorted: strictly descending. *)
Lemma descending_to_nat (ds : list Z) :
  StronglySorted (flip Z.le) ds → NoDup ds → Forall (fun d => 0 ≤ d) ds →
  StronglySorted (fun a b => b < a)%nat (Z.to_nat <$> ds).
Proof.
  induction ds as [|d ds IH]; intros Hs Hnd Hpos; [constructor|].
  apply StronglySorted_inv in Hs as [Hs Hd].
  apply NoDup_cons in Hnd as [Hnotin Hnd].
  apply Forall_cons in Hpos as [Hd0 Hpos].
  rewrite fmap_cons. constructor; [by apply IH|].
  rewrite Forall_fmap, Forall_forall. intros e He. simpl.
  rewrite Forall_forall in Hd, Hpos. specialize (Hd e He). specialize (Hpos e He).
  unfold flip in Hd. assert (e ≠ d) by (intros ->; done). lia.
Qed.

Lemma foldl_splice1_deleteAll {A} (ds : list Z) : ∀ l : list A,
  Forall (fun d => 0 ≤ d) ds →
  foldl (fun acc idx => splice1 idx acc) l ds = deleteAll l (Z.to_nat <$> ds).
Proof.
  induction ds as [|d ds IH]; intros l Hpos; [done|].
  apply Forall_cons in Hpos as [Hd Hpos]. simpl.
  rewrite splice1_nonneg by done. by apply IH.
Qed.

(** The playlist after the [setPlaylist] updater of [deleteSelectedTracks]. *)
Lemma foldl_splice1_unselected {A} (sel : gset Z) (l : list A) :
  nonnegative sel →
  foldl (fun acc idx => splice1 idx acc) l (indicesToDelete sel)
  = unselected (isSelected sel) 0 l.
Proof.
  intros Hpos.
  assert (Hall : Forall (fun d => 0 ≤ d) (indicesToDelete sel)).
  { rewrite Forall_forall. intros d Hd. by apply Hpos, elem_of_indicesToDelete. }
  rewrite foldl_splice1_deleteAll by done.
  rewrite deleteAll_unselected.
  2:{ apply descending_to_nat;
        [apply indicesToDelete_sorted | apply indicesToDelete_NoDup | done]. }
  apply unselected_ext. intros j _. unfold isSelected.
  apply bool_decide_ext. rewrite list_elem_of_fmap. split.
  - intros (d & -> & Hd). rewrite Z2Nat.id; [by apply elem_of_indicesToDelete|].
    by apply Hpos, elem_of_indicesToDelete.
  - intros Hj. exists (Z.of_nat j). split; [by rewrite Nat2Z.id|].
    by apply elem_of_indicesToDelete.
Qed.

(** ** The [setCurrentIndex] updater *)

Lemma adjustLoop_deleted (cur : Z) (ds : list Z) : ∀ n,
  cur ∈ ds → adjustLoop cur ds n = -1.
Proof.
  induction ds as [|d ds IH]; intros n Hin; [by apply elem_of_nil in Hin|].
  simpl. destruct (Z.ltb_spec d cur) as [Hlt|Hge].
  - apply IH. apply elem_of_cons in Hin as [->|]; [lia | done].
  - destruct (Z.eqb_spec d cur) as [_|Hne]; [done|].
    apply IH. apply elem_of_cons in Hin as [->|]; done.
Qed.

Lemma adjustLoop_kept (cur : Z) (ds : list Z) : ∀ n,
  cur ∉ ds →
  adjustLoop cur ds n = n - Z.of_nat (length (filter (fun d => d < cur) ds)).
Proof.
  induction ds as [|d ds IH]; intros n Hin; [simpl; lia|].
  apply not_elem_of_cons in Hin as [Hne Hin]. simpl.
  destruct (Z.ltb_spec d cur) as [Hlt|Hge].
  - rewrite filter_cons_True by done. rewrite IH by done. simpl length. lia.
  - rewrite filter_cons_False by lia.
    destruct (Z.eqb_spec d cur) as [->|_]; [done|]. by apply IH.
Qed.

Lemma size_filter_elements (P : Z → Prop) `{!∀ d, Decision (P d)} (sel : gset Z) :
  size (filter P sel) = length (filter P (indicesToDelete sel)).
Proof.
  unfold size, set_size. simpl. apply Permutation_length.
  rewrite indicesToDelete_Permutation.
  apply NoDup_Permutation.
  - apply NoDup_elements.
  - apply NoDup_filter, NoDup_elements.
  - intros d. rewrite list_elem_of_filter, !elem_of_elements, elem_of_filter. done.
Qed.

Lemma size_filter_selectedFrom (sel : gset Z) (k : nat) : ∀ i : nat,
  size (filter (fun d => Z.of_nat i ≤ d < Z.of_nat i + Z.of_nat k) sel)
  = selectedFrom (isSelected sel) i k.
Proof.
  induction k as [|k IH]; intros i.
  - cbn [selectedFrom]. apply size_empty_iff. intros d.
    rewrite elem_of_filter, elem_of_empty. lia.
  - cbn [selectedFrom]. rewrite <- IH. unfold isSelected.
    destruct (bool_decide_reflect (Z.of_nat i ∈ sel)) as [Hin|Hnotin].
    + replace (filter (fun d => Z.of_nat i ≤ d < Z.of_nat i + Z.of_nat (S k)) sel)
        with ({[Z.of_nat i]} ∪
              filter (fun d => Z.of_nat (S i) ≤ d < Z.of_nat (S i) + Z.of_nat k) sel).
      * rewrite size_union, size_singleton; [done|].
        intros d. rewrite elem_of_singleton, elem_of_filter. lia.
      * apply set_eq. intros d.
        rewrite elem_of_union, elem_of_singleton, !elem_of_filter.
        split; [intros [->|[? ?]]; split; (done || lia)|].
        intros [? ?]. destruct (decide (d = Z.of_nat i)); [by left|right].
        split; [lia|done].
    + cbn [Nat.add]. f_equal. apply set_eq. intros d. rewrite !elem_of_filter.
      split; intros [? ?]; (split; [|done]).
      * assert (d ≠ Z.of_nat i) by (intros ->; done). lia.
      * lia.
Qed.

(** For a selection of non-negative indices, the deleted indices below
    [cur] are the selected positions among [0], ..., [cur - 1]. *)
Lemma size_below_selectedFrom (sel : gset Z) (cur : Z) :
  nonnegative sel → 0 ≤ cur →
  size (filter (fun d => d < cur) sel)
  = selectedFrom (isSelected sel) 0 (Z.to_nat cur).
Proof.
  intros Hpos Hcur. rewrite <- size_filter_selectedFrom. f_equal.
  apply set_eq. intros d. rewrite !elem_of_filter.
  split; intros [? Hd]; (split; [|done]); [specialize (Hpos d Hd)|]; lia.
Qed.

(** ** [deleteSelectedTracks] *)

Lemma deleteSelectedTracks_empty (s : State) :
  selectedIndices s = ∅ → deleteSelectedTracks s = s.
Proof.
  intros H. unfold deleteSelectedTracks. rewrite H.
  by rewrite decide_True by apply size_empty.
Qed.

Lemma deleteSelectedTracks_fields (s : State) :
  let s' := deleteSelectedTracks s in
  playlist s' = foldl (fun acc idx => splice1 idx acc) (playlist s)
                  (indicesToDelete (selectedIndices s))
  ∧ currentIndex s' = adjustIndex (indicesToDelete (selectedIndices s)) (currentIndex s)
  ∧ selectedIndices s' = ∅
  ∧ isPlaying s' = isPlaying s
  ∧ audioEngine s' = audioEngine s
  ∧ pending s' = pending s.
Proof.
  simpl. unfold deleteSelectedTracks.
  destruct (decide (size (selectedIndices s) = 0%nat)) as [H0|_]; [|done].
  apply size_empty_iff in H0. apply leibniz_equiv in H0.
  unfold indicesToDelete. rewrite H0, elements_empty. simpl.
  unfold adjustIndex. simpl. by destruct (currentIndex s =? -1) eqn:E; [apply Z.eqb_eq in E|].
Qed.

Lemma indicesToDelete_descending (sel : gset Z) :
  StronglySorted (fun a b => b < a) (indicesToDelete sel).
Proof.
  pose proof (indicesToDelete_sorted sel) as Hs.
  pose proof (indicesToDelete_NoDup sel) as Hnd.
  induction (indicesToDelete sel) as [|d ds IH]; [constructor|].
  apply StronglySorted_inv in Hs as [Hs Hd].
  apply NoDup_cons in Hnd as [Hnotin Hnd].
  constructor; [by apply IH|].
  rewrite Forall_forall in Hd |- *. intros e He. specialize (Hd e He).
  unfold flip in Hd. assert (e ≠ d) by (intros ->; done). lia.
Qed.

(** A state with three tracks, the first one playing, reached from the
    initial state by a drop and the completion of the load it starts. *)
Example demo_reachable : reachable demo.
Proof.
  apply (reachable_step _ (EvSettle 0 true)); [|exact I].
  apply (reachable_step _ (EvSettle 0 true)); [|exact I].
  apply (reachable_step _ (EvDragDrop _)); [|exact I].
  constructor.
Qed.

(** C7. [deleteSelectedTracks] removes exactly the tracks whose indices
    are selected: it removes one position after the other from the list of
    selected indices sorted in strictly descending order, which leaves the
    tracks whose index is not selected, in their order; the selection is
    empty afterwards.  Selecting 0 and 2 in [A, B, C] leaves [B]. *)
Theorem deleteSelected_removes_exactly_selected (s : State) :
  nonnegative (selectedIndices s) →
  let s' := deleteSelectedTracks s in
  playlist s' = foldl (fun acc idx => splice1 idx acc) (playlist s)
                  (indicesToDelete (selectedIndices s))
  ∧ StronglySorted (fun a b => b < a) (indicesToDelete (selectedIndices s))
  ∧ (∀ d, d ∈ indicesToDelete (selectedIndices s) ↔ d ∈ selectedIndices s)
  ∧ playlist s' = unselected (isSelected (selectedIndices s)) 0 (playlist s)
  ∧ selectedIndices s' = ∅
  ∧ playlist demoDeleted = [trackB]
  ∧ selectedIndices demoDeleted = ∅.
Proof.
  intros Hpos s'.
  destruct (deleteSelectedTracks_fields s) as (Hpl & _ & Hsel & _).
  split; [exact Hpl|].
  split; [apply indicesToDelete_descending|].
  split; [intros d; apply elem_of_indicesToDelete|].
  split; [|split; [exact Hsel|]].
  - subst s'. rewrite Hpl. by apply foldl_splice1_unselected.
  - split; by vm_compute.
Qed.

Lemma deleteSelected_removes_exactly_selected_witness :
  playlist (deleteSelectedTracks (setSelectedIndices {[1]} demo)) = [trackA; trackC].
Proof.
  destruct (deleteSelected_removes_exactly_selected (setSelectedIndices {[1]} demo))
    as (_ & _ & _ & -> & _).
  - intros d Hd. change (d ∈ ({[1]} : gset Z)) in Hd.
    apply elem_of_singleton in Hd. subst d. lia.
  - reflexivity.
Defined.

Lemma currentIndex_after_delete (s : State) :
  let sel := selectedIndices s in
  let s' := deleteSelectedTracks s in
  (currentIndex s ∈ sel → currentIndex s' = -1)
  ∧ (currentIndex s ∉ sel → currentIndex s ≠ -1 →
     currentIndex s' = currentIndex s
                       - Z.of_nat (size (filter (fun d => d < currentIndex s) sel)))
  ∧ (currentIndex s = -1 → currentIndex s' = -1).
Proof.
  intros sel s'.
  destruct (deleteSelectedTracks_fields s) as (_ & Hcur & _).
  fold s' in Hcur. fold sel in Hcur.
  split; [|split].
  - intros Hin. rewrite Hcur. unfold adjustIndex.
    destruct (currentIndex s =? -1); [done|].
    apply adjustLoop_deleted. by apply elem_of_indicesToDelete.
  - intros Hnotin Hne. rewrite Hcur. unfold adjustIndex.
    destruct (Z.eqb_spec (currentIndex s) (-1)) as [|_]; [done|].
    rewrite adjustLoop_kept by (by rewrite elem_of_indicesToDelete).
    by rewrite size_filter_elements.
  - intros Heq. rewrite Hcur. unfold adjustIndex. by rewrite Heq.
Qed.

(** C1 (amended). When the current index is selected, [deleteSelectedTracks]
    sets [currentIndex] to [-1]; it leaves [isPlaying] as it was and calls
    nothing on the audio engine.  When the current index is not selected,
    [currentIndex] is decreased by the number of deleted indices strictly
    below it; the deleted indices above it do not count. *)
Theorem deleteSelected_adjusts_currentIndex (s : State) :
  let sel := selectedIndices s in
  let s' := deleteSelectedTracks s in
  (currentIndex s ∈ sel → currentIndex s' = -1)
  ∧ (currentIndex s ∉ sel → currentIndex s ≠ -1 →
     currentIndex s' = currentIndex s
                       - Z.of_nat (size (filter (fun d => d < currentIndex s) sel)))
  ∧ (currentIndex s = -1 → currentIndex s' = -1)
  ∧ isPlaying s' = isPlaying s
  ∧ audioEngine s' = audioEngine s.
Proof.
  intros sel s'.
  destruct (deleteSelectedTracks_fields s) as (_ & _ & _ & Hplay & Haudio & _).
  destruct (currentIndex_after_delete s) as (H1 & H2 & H3).
  by repeat split.
Qed.

(** The claim as written: deleting the playing track stops playback. *)
Lemma deleteSelected_does_not_stop_playback :
  ¬ (∀ s : State,
       currentIndex s ∈ selectedIndices s →
       currentIndex (deleteSelectedTracks s) = -1
       ∧ isPlaying (deleteSelectedTracks s) = false).
Proof.
  intros H. destruct (H demoSelected) as [_ Hplay].
  - by vm_compute.
  - vm_compute in Hplay. discriminate.
Qed.

Lemma deleteSelected_adjusts_currentIndex_witness :
  currentIndex (deleteSelectedTracks demoSelected) = -1
  ∧ isPlaying (deleteSelectedTracks demoSelected) = true.
Proof.
  destruct (deleteSelected_adjusts_currentIndex demoSelected)
    as (H1 & _ & _ & H2 & _).
  split.
  - apply H1. by vm_compute.
  - rewrite H2. by vm_compute.
Defined.

(** ** [playTrack] *)

Lemma playTrack_out_of_bounds vol index (currentList : list Track) s :
  index < 0 ∨ len currentList ≤ index → playTrack vol index currentList s = s.
Proof.
  intros H. unfold playTrack.
  destruct (Z.ltb_spec index 0); [done|].
  destruct (Z.geb_spec index (len currentList)); [done|lia].
Qed.

Lemma lookup_in_bounds (currentList : list Track) index track :
  0 ≤ index → currentList !! Z.to_nat index = Some track →
  (index <? 0) || (index >=? len currentList) = false.
Proof.
  intros H0 Hl. apply lookup_lt_Some in Hl. unfold len.
  destruct (Z.ltb_spec index 0); [lia|].
  destruct (Z.geb_spec index (Z.of_nat (length currentList))); [lia|done].
Qed.

Lemma playTrack_unsupported vol index (currentList : list Track) s track :
  0 ≤ index → currentList !! Z.to_nat index = Some track →
  isValidAudioFile (path track) = false →
  playTrack vol index currentList s
  = s |> setErrorMessage (Some "Invalid audio file type"%string) |> setTimeout 3000.
Proof.
  intros H0 Hl Hv. unfold playTrack.
  by rewrite (lookup_in_bounds _ _ _ H0 Hl), Hl, Hv.
Qed.

Lemma playTrack_supported vol index (currentList : list Track) s track :
  0 ≤ index → currentList !! Z.to_nat index = Some track →
  isValidAudioFile (path track) = true →
  playTrack vol index currentList s
  = s |> setCurrentIndex index |> revokeCurrent |> readFile (path track)
      |> await (AwaitReadFile track vol).
Proof.
  intros H0 Hl Hv. unfold playTrack.
  by rewrite (lookup_in_bounds _ _ _ H0 Hl), Hl, Hv.
Qed.

Lemma revokeCurrent_fields s :
  let s' := revokeCurrent s in
  isPlaying s' = isPlaying s ∧ playlist s' = playlist s
  ∧ currentIndex s' = currentIndex s ∧ selectedIndices s' = selectedIndices s
  ∧ audioEngine s' = audioEngine s ∧ nextUrl s' = nextUrl s
  ∧ reads s' = reads s ∧ pending s' = pending s ∧ timers s' = timers s
  ∧ errorMessage s' = errorMessage s ∧ currentObjectUrlRef s' = None.
Proof. unfold revokeCurrent. destruct (currentObjectUrlRef s) eqn:E; simpl; by rewrite ?E. Qed.

(** Settling a promise never writes [currentIndex] or [playlist]. *)
Lemma settle_currentIndex k ok s :
  currentIndex (settle k ok s) = currentIndex s
  ∧ playlist (settle k ok s) = playlist s
  ∧ selectedIndices (settle k ok s) = selectedIndices s.
Proof.
  unfold settle. destruct (pending s !! k) as [[track vol| |]|]; [| | |done];
    destruct ok; done.
Qed.

(** C4 (amended). [playTrack] with an index out of bounds returns without
    any effect: the state is unchanged and no error is reported.  With an
    index in bounds whose track has no supported extension it reports
    "Invalid audio file type", arms a timer of 3000 ms whose firing clears
    the message, and changes neither [currentIndex] nor [isPlaying] nor
    the audio engine; no file is read and no load is pending. *)
Theorem playTrack_rejects_invalid (vol : Q) (index : Z) (currentList : list Track)
    (s : State) :
  let s' := playTrack vol index currentList s in
  (index < 0 ∨ len currentList ≤ index → s' = s)
  ∧ (∀ track, 0 ≤ index → currentList !! Z.to_nat index = Some track →
       isValidAudioFile (path track) = false →
       errorMessage s' = Some "Invalid audio file type"%string
       ∧ timers s' = timers s ++ [3000]
       ∧ errorMessage (timeout (length (timers s)) s') = None
       ∧ currentIndex s' = currentIndex s
       ∧ isPlaying s' = isPlaying s
       ∧ audioEngine s' = audioEngine s
       ∧ reads s' = reads s
       ∧ pending s' = pending s
       ∧ objectUrls s' = objectUrls s
       ∧ currentObjectUrlRef s' = currentObjectUrlRef s).
Proof.
  intros s'. split.
  - intros H. by apply playTrack_out_of_bounds.
  - intros track H0 Hl Hv. subst s'.
    rewrite (playTrack_unsupported _ _ _ _ _ H0 Hl Hv).
    repeat split. unfold timeout. simpl.
    rewrite lookup_app_r, Nat.sub_diag by lia. done.
Qed.

(** The claim as written: an index out of bounds is reported as an error. *)
Lemma playTrack_out_of_bounds_is_silent :
  ¬ (∀ (vol : Q) (index : Z) (currentList : list Track) (s : State),
       index < 0 ∨ len currentList ≤ index →
       errorMessage (playTrack vol index currentList s)
       = Some "Invalid audio file type"%string).
Proof.
  intros H. specialize (H 1%Q 3 (playlist demo) demo).
  vm_compute in H. assert (Some "Invalid audio file type"%string = None) as E.
  { symmetry. apply H. right. discriminate. }
  discriminate E.
Qed.

Lemma playTrack_rejects_invalid_witness :
  errorMessage (playTrack 1 0 [track "cover.png"] initial)
  = Some "Invalid audio file type"%string
  ∧ playTrack 1 7 [track "cover.png"] initial = initial.
Proof.
  destruct (playTrack_rejects_invalid 1 0 [track "cover.png"] initial) as [_ H].
  destruct (H (track "cover.png")) as (He & _); [lia | reflexivity | reflexivity |].
  split; [exact He|].
  apply (playTrack_rejects_invalid 1 7 [track "cover.png"] initial).
  right. unfold len. simpl. lia.
Defined.

(** The state in which [playTrack] suspends on the read of a supported
    track. *)
Lemma playTrack_supported_fields (vol : Q) (index : Z) (s : State) (track : Track) :
  0 ≤ index → playlist s !! Z.to_nat index = Some track →
  isValidAudioFile (path track) = true →
  let s' := playTrack vol index (playlist s) s in
  currentIndex s' = index
  ∧ pending s' = pending s ++ [AwaitReadFile track vol]
  ∧ reads s' = reads s ++ [path track]
  ∧ isPlaying s' = isPlaying s
  ∧ audioEngine s' = audioEngine s.
Proof.
  intros H0 Hl Hv s'. subst s'. rewrite (playTrack_supported _ _ _ _ _ H0 Hl Hv).
  destruct (revokeCurrent_fields (setCurrentIndex index s))
    as (Hp & _ & Hc & _ & Ha & _ & Hr & Hpe & _).
  simpl in *. by rewrite Hp, Hc, Ha, Hr, Hpe.
Qed.

(** C5. For an index in the playlist whose track has a supported
    extension, the part of [playTrack] that runs before its first [await]
    sets [currentIndex] to that index: when it suspends, the read of the
    file has been requested and is pending, nothing has been called on the
    audio engine and [isPlaying] is as before.  The completions that
    follow leave [currentIndex] at that index. *)
Theorem playTrack_sets_currentIndex_first (vol : Q) (index : Z) (s : State)
    (track : Track) :
  0 ≤ index → playlist s !! Z.to_nat index = Some track →
  isValidAudioFile (path track) = true →
  let s' := playTrack vol index (playlist s) s in
  currentIndex s' = index
  ∧ pending s' = pending s ++ [AwaitReadFile track vol]
  ∧ reads s' = reads s ++ [path track]
  ∧ isPlaying s' = isPlaying s
  ∧ audioEngine s' = audioEngine s
  ∧ (∀ k ok, currentIndex (settle k ok s') = index).
Proof.
  intros H0 Hl Hv s'.
  destruct (playTrack_supported_fields vol index s track H0 Hl Hv)
    as (Hc & Hp & Hr & Hi & Ha).
  repeat split; try done.
  intros k ok. destruct (settle_currentIndex k ok s') as (-> & _). exact Hc.
Qed.

Lemma playTrack_sets_currentIndex_first_witness :
  currentIndex (playTrack 1 2 (playlist demo) demo) = 2
  ∧ pending (playTrack 1 2 (playlist demo) demo) = [AwaitReadFile trackC 1].
Proof.
  destruct (playTrack_sets_currentIndex_first 1 2 demo trackC) as (H1 & H2 & _);
    [lia | reflexivity | reflexivity |].
  split; [exact H1 | exact H2].
Defined.

(** ** The object URL held by [currentObjectUrlRef] *)

(** C3 (amended). On a track change that passes validation, the object
    URL held so far is revoked before the file is read, that is before the
    replacement is created: when [playTrack] suspends, the old URL is no
    longer live, no URL is held and none has been created.  When the read
    then fails, no URL is created and the old one stays revoked; when it
    succeeds, a new URL is created for the bytes of the track, becomes the
    one held and is loaded into the audio engine. *)
Theorem playTrack_revokes_before_creating (vol : Q) (index : Z) (s : State)
    (track : Track) (h : nat) :
  0 ≤ index → playlist s !! Z.to_nat index = Some track →
  isValidAudioFile (path track) = true →
  currentObjectUrlRef s = Some h →
  let s1 := playTrack vol index (playlist s) s in
  let failed := settle (length (pending s)) false s1 in
  let loaded := settle (length (pending s)) true s1 in
  (objectUrls s1 !! h = None ∧ currentObjectUrlRef s1 = None
   ∧ nextUrl s1 = nextUrl s
   ∧ pending s1 = pending s ++ [AwaitReadFile track vol])
  ∧ (objectUrls failed !! h = None ∧ currentObjectUrlRef failed = None
     ∧ nextUrl failed = nextUrl s
     ∧ errorMessage failed = Some "Failed to load audio file"%string
     ∧ isPlaying failed = false)
  ∧ (currentObjectUrlRef loaded = Some (nextUrl s)
     ∧ objectUrls loaded !! nextUrl s
       = Some (mkBlob (path track) (getMimeType (path track)))
     ∧ AudioEngine.src (audioEngine loaded) = Some (nextUrl s)
     ∧ pending loaded = pending s ++ [AwaitPlay]).
Proof.
  intros H0 Hl Hv Href s1 failed loaded.
  subst failed loaded s1. rewrite (playTrack_supported _ _ _ _ _ H0 Hl Hv).
  unfold settle, revokeCurrent, await. simpl. rewrite Href. simpl.
  rewrite !lookup_app_r, !Nat.sub_diag by lia. simpl.
  assert (Hdel : delete (length (pending s)) (pending s ++ [AwaitReadFile track vol])
                 = pending s).
  { rewrite delete_middle. apply app_nil_r. }
  rewrite Hdel, lookup_delete_eq, lookup_insert_eq. done.
Qed.

(** The claim as written: the old URL is still live while the replacement
    is being loaded, and after a failed load. *)
Lemma previous_url_released_before_replacement :
  ¬ (∀ (s : State) (vol : Q) (index : Z) (track : Track) (h : nat),
       0 ≤ index → playlist s !! Z.to_nat index = Some track →
       isValidAudioFile (path track) = true →
       currentObjectUrlRef s = Some h → is_Some (objectUrls s !! h) →
       is_Some (objectUrls (playTrack vol index (playlist s) s) !! h)
       ∧ is_Some (objectUrls (settle (length (pending s)) false
                                (playTrack vol index (playlist s) s)) !! h)).
Proof.
  intros H.
  destruct (H demo 1%Q 1 trackB 0%nat) as [[b Hb] _];
    [lia | reflexivity | reflexivity | reflexivity | by eexists |].
  vm_compute in Hb. discriminate.
Qed.

Lemma playTrack_revokes_before_creating_witness :
  objectUrls (playTrack 1 1 (playlist demo) demo) !! 0%nat = None
  ∧ currentObjectUrlRef (settle 0 false (playTrack 1 1 (playlist demo) demo)) = None.
Proof.
  destruct (playTrack_revokes_before_creating 1 1 demo trackB 0%nat)
    as ((H1 & _) & (_ & H2 & _) & _);
    [lia | reflexivity | reflexivity | reflexivity |].
  split; [exact H1 | exact H2].
Defined.

(** ** The "ended" notification *)

(** C6. The "ended" handler reads the playlist and the current index of
    the state it is delivered in.  With the index out of bounds it only
    sets [isPlaying] to false.  With a next track it calls [playTrack] on
    the next index, which makes it the current index and requests its
    file.  On the last track it only sets [isPlaying] to false: the index
    stays, nothing is loaded, there is no wrap-around.  In [A, B, C],
    "ended" while [A] plays advances to [B]; while [C] plays it pauses
    with the index still 2. *)
Theorem onEnded_advances_or_stops (s : State) :
  let cur := currentIndex s in
  let n := len (playlist s) in
  (cur < 0 ∨ n ≤ cur → onEnded s = setIsPlaying false s)
  ∧ (0 ≤ cur → cur + 1 < n →
     onEnded s = playTrack firstRenderVolume (cur + 1) (playlist s) s)
  ∧ (∀ track, 0 ≤ cur → playlist s !! Z.to_nat (cur + 1) = Some track →
       isValidAudioFile (path track) = true →
       currentIndex (onEnded s) = cur + 1
       ∧ pending (onEnded s) = pending s ++ [AwaitReadFile track firstRenderVolume])
  ∧ (0 ≤ cur → cur + 1 = n →
     onEnded s = setIsPlaying false s
     ∧ currentIndex (onEnded s) = cur ∧ isPlaying (onEnded s) = false
     ∧ pending (onEnded s) = pending s ∧ reads (onEnded s) = reads s)
  ∧ (currentIndex demo = 0 ∧ currentIndex (onEnded demo) = 1
     ∧ pending (onEnded demo) = [AwaitReadFile trackB firstRenderVolume])
  ∧ (currentIndex demoLast = 2 ∧ isPlaying demoLast = true
     ∧ currentIndex (onEnded demoLast) = 2 ∧ isPlaying (onEnded demoLast) = false
     ∧ pending (onEnded demoLast) = []).
Proof.
  intros cur n. subst cur n.
  assert (Hadv : 0 ≤ currentIndex s → currentIndex s + 1 < len (playlist s) →
    onEnded s = playTrack firstRenderVolume (currentIndex s + 1) (playlist s) s).
  { intros H0 H1. unfold onEnded.
    destruct (Z.ltb_spec (currentIndex s) 0); [lia|].
    destruct (Z.geb_spec (currentIndex s) (len (playlist s))); [lia|]. simpl.
    destruct (Z.ltb_spec (currentIndex s + 1) (len (playlist s))); [done|lia]. }
  assert (Hlast : 0 ≤ currentIndex s → currentIndex s + 1 = len (playlist s) →
    onEnded s = setIsPlaying false s).
  { intros H0 H1. unfold onEnded.
    destruct (Z.ltb_spec (currentIndex s) 0); [lia|].
    destruct (Z.geb_spec (currentIndex s) (len (playlist s))); [lia|]. simpl.
    destruct (Z.ltb_spec (currentIndex s + 1) (len (playlist s))); [lia|done]. }
  split; [|split; [exact Hadv|split; [|split]]].
  - intros H. unfold onEnded.
    destruct (Z.ltb_spec (currentIndex s) 0); [done|].
    destruct (Z.geb_spec (currentIndex s) (len (playlist s))); [done|lia].
  - intros track H0 Hl Hv. rewrite Hadv; [|done|].
    + by destruct (playTrack_supported_fields firstRenderVolume
                     (currentIndex s + 1) s track) as (? & ? & _); [lia|..].
    + apply lookup_lt_Some in Hl. unfold len. lia.
  - intros H0 H1. by rewrite (Hlast H0 H1).
  - split; by vm_compute.
Qed.

Lemma onEnded_advances_or_stops_witness :
  onEnded demoLast = setIsPlaying false demoLast
  ∧ onEnded demo = playTrack firstRenderVolume 1 (playlist demo) demo.
Proof.
  destruct (onEnded_advances_or_stops demoLast) as (_ & _ & _ & H & _).
  destruct (onEnded_advances_or_stops demo) as (_ & H' & _).
  split.
  - apply H; reflexivity || (vm_compute; discriminate).
  - apply H'; reflexivity || (vm_compute; discriminate).
Defined.

(** ** Keyboard seek *)

(** C10. Outside a text field, ArrowLeft sets the displayed [currentTime]
    to exactly [currentTime - 5] and ArrowRight to exactly
    [currentTime + 5], and passes the same time to the engine; neither is
    clamped: ArrowLeft at a time below 5 makes [currentTime] negative. *)
Theorem arrow_keys_seek_unclamped (e : KeyboardEvent) (s : State) :
  targetIsInput e = false →
  (code e = "ArrowLeft"%string →
   currentTime (handleKeyDown e s) = (currentTime s - 5)%Q
   ∧ AudioEngine.currentTime (audioEngine (handleKeyDown e s)) = (currentTime s - 5)%Q)
  ∧ (code e = "ArrowRight"%string →
     currentTime (handleKeyDown e s) = (currentTime s + 5)%Q
     ∧ AudioEngine.currentTime (audioEngine (handleKeyDown e s)) = (currentTime s + 5)%Q)
  ∧ (code e = "ArrowLeft"%string → (currentTime s < 5)%Q →
     (currentTime (handleKeyDown e s) < 0)%Q).
Proof.
  destruct e as [input meta ctrl c]. simpl. intros ->.
  assert (HL : c = "ArrowLeft"%string →
    handleKeyDown (mkKey false meta ctrl c) s
    = s |> onAudioEngine (AudioEngine.seek (currentTime s - 5)%Q)
        |> updCurrentTime (fun t => t - 5)%Q).
  { intros ->. unfold handleKeyDown. simpl. by rewrite andb_false_r. }
  assert (HR : c = "ArrowRight"%string →
    handleKeyDown (mkKey false meta ctrl c) s
    = s |> onAudioEngine (AudioEngine.seek (currentTime s + 5)%Q)
        |> updCurrentTime (fun t => t + 5)%Q).
  { intros ->. unfold handleKeyDown. simpl. by rewrite andb_false_r. }
  split; [|split].
  - intros Hc. by rewrite (HL Hc).
  - intros Hc. by rewrite (HR Hc).
  - intros Hc Hlt. rewrite (HL Hc). simpl. lra.
Qed.

Lemma arrow_keys_seek_unclamped_witness :
  (currentTime (handleKeyDown keyArrowLeft (setCurrentTime 2 demo)) < 0)%Q.
Proof.
  destruct (arrow_keys_seek_unclamped keyArrowLeft (setCurrentTime 2 demo)) as (_ & _ & H);
    [reflexivity|].
  apply H; reflexivity.
Defined.

(** ** Superseded loads *)

Lemma run_settle_currentIndex (es : list Event) : ∀ s,
  Forall isSettle es → currentIndex (run es s) = currentIndex s.
Proof.
  induction es as [|e es IH]; intros s Hes; [done|].
  apply Forall_cons in Hes as [He Hes].
  destruct e; try done. unfold run in *. simpl.
  rewrite IH by done. apply settle_currentIndex.
Qed.

(** C9 (amended). When [playTrack j] is called while the load of an earlier
    [playTrack i] is pending, [currentIndex] is [j] and stays [j] whatever
    completes afterwards: no completion writes [currentIndex].  The loaded
    source is not guarded: the continuation of a completed read, stale or
    not, creates a URL for its own track, makes it the one held and loads
    it into the engine, and the continuation of a completed play sets
    [isPlaying]. *)
Theorem superseded_load_keeps_currentIndex (s : State) (vi vj : Q) (i j : Z)
    (tj : Track) (es : list Event) :
  0 ≤ j → playlist s !! Z.to_nat j = Some tj →
  isValidAudioFile (path tj) = true →
  Forall isSettle es →
  currentIndex (run es (playTrack vj j (playlist s) (playTrack vi i (playlist s) s))) = j
  ∧ (∀ (s0 : State) (k : nat) (t : Track) (v : Q),
       pending s0 !! k = Some (AwaitReadFile t v) →
       let s1 := settle k true s0 in
       currentObjectUrlRef s1 = Some (nextUrl s0)
       ∧ AudioEngine.src (audioEngine s1) = Some (nextUrl s0)
       ∧ objectUrls s1 !! nextUrl s0 = Some (mkBlob (path t) (getMimeType (path t))))
  ∧ (∀ (s0 : State) (k : nat),
       pending s0 !! k = Some AwaitPlay → isPlaying (settle k true s0) = true).
Proof.
  intros H0 Hl Hv Hes. split; [|split].
  - rewrite run_settle_currentIndex by done.
    assert (Hpl : playlist (playTrack vi i (playlist s) s) = playlist s).
    { unfold playTrack.
      destruct ((i <? 0) || (i >=? len (playlist s))); [done|].
      destruct (playlist s !! Z.to_nat i) as [t|]; [|done].
      destruct (isValidAudioFile (path t)); simpl; [|done].
      by destruct (revokeCurrent_fields (setCurrentIndex i s)) as (_ & -> & _). }
    revert Hpl. generalize (playTrack vi i (playlist s) s). intros s1 Hpl.
    rewrite <- Hpl in Hl |- *.
    by destruct (playTrack_supported_fields vj j s1 tj H0 Hl Hv) as (? & _).
  - intros s0 k t v Hk. unfold settle. rewrite Hk. simpl.
    by rewrite lookup_insert_eq.
  - intros s0 k Hk. unfold settle. by rewrite Hk.
Qed.

(** The claim as written: after the later [playTrack j], no completion
    loads the source of track [i]. *)
Lemma stale_load_sets_source :
  ¬ (∀ (s : State) (vi vj : Q) (i j : Z) (ti tj : Track) (es : list Event),
       0 ≤ i → playlist s !! Z.to_nat i = Some ti →
       isValidAudioFile (path ti) = true →
       0 ≤ j → playlist s !! Z.to_nat j = Some tj →
       isValidAudioFile (path tj) = true →
       path ti ≠ path tj →
       Forall isSettle es →
       let final :=
         run es (playTrack vj j (playlist s) (playTrack vi i (playlist s) s)) in
       ∀ (u : nat) (b : Blob),
         AudioEngine.src (audioEngine final) = Some u →
         objectUrls final !! u = Some b →
         blob_bytes_of b ≠ path ti).
Proof.
  intros H.
  assert (Hes : Forall isSettle completions) by (repeat constructor).
  assert (Hne : path trackB ≠ path trackC) by discriminate.
  assert (H0 : 0 ≤ 1) by lia. assert (H0' : 0 ≤ 2) by lia.
  assert (HB : playlist demo !! Z.to_nat 1 = Some trackB) by (by vm_compute).
  assert (HC : playlist demo !! Z.to_nat 2 = Some trackC) by (by vm_compute).
  assert (HvB : isValidAudioFile (path trackB) = true) by (by vm_compute).
  assert (HvC : isValidAudioFile (path trackC) = true) by (by vm_compute).
  assert (Hsrc : AudioEngine.src (audioEngine (run completions
            (playTrack 1 2 (playlist demo) (playTrack 1 1 (playlist demo) demo))))
          = Some 2%nat)
    by (by vm_compute).
  assert (Hobj : objectUrls (run completions
            (playTrack 1 2 (playlist demo) (playTrack 1 1 (playlist demo) demo)))
          !! 2%nat = Some (mkBlob "B.flac" "audio/flac"))
    by (by vm_compute).
  exact (H demo 1%Q 1%Q 1 2 trackB trackC completions H0 HB HvB H0' HC HvC
           Hne Hes 2%nat (mkBlob "B.flac" "audio/flac") Hsrc Hobj eq_refl).
Qed.

Lemma superseded_load_keeps_currentIndex_witness :
  currentIndex superseded = 2
  ∧ AudioEngine.src (audioEngine superseded) = Some 2%nat
  ∧ objectUrls superseded !! 2%nat = Some (mkBlob "B.flac" "audio/flac").
Proof.
  assert (Hes : Forall isSettle completions) by (repeat constructor).
  assert (H0 : 0 ≤ 2) by lia.
  assert (HC : playlist demo !! Z.to_nat 2 = Some trackC) by (by vm_compute).
  assert (HvC : isValidAudioFile (path trackC) = true) by (by vm_compute).
  split; [|split; by vm_compute].
  unfold superseded.
  exact (proj1 (superseded_load_keeps_currentIndex demo 1 1 1 2 trackC completions
                  H0 HC HvC Hes)).
Defined.

(** What [playTrack] leaves alone, and the only way it writes
    [currentIndex]. *)
Lemma playTrack_frame vol index (currentList : list Track) s :
  let s' := playTrack vol index currentList s in
  playlist s' = playlist s ∧ selectedIndices s' = selectedIndices s
  ∧ isPlaying s' = isPlaying s
  ∧ (currentIndex s' = currentIndex s
     ∨ currentIndex s' = index ∧ 0 ≤ index < len currentList).
Proof.
  simpl. unfold playTrack.
  destruct (Z.ltb_spec index 0); [by auto|].
  destruct (Z.geb_spec index (len currentList)); [by auto|]. simpl.
  destruct (currentList !! Z.to_nat index) as [t|]; [|by auto].
  destruct (isValidAudioFile (path t)); simpl; [|by auto].
  destruct (revokeCurrent_fields (setCurrentIndex index s))
    as (-> & -> & -> & -> & _).
  simpl. repeat split; try done. right. lia.
Qed.

Lemma playTrack_indexInRange vol index s :
  indexInRange s → indexInRange (playTrack vol index (playlist s) s).
Proof.
  intros Hs. unfold indexInRange.
  destruct (playTrack_frame vol index (playlist s) s) as (-> & _ & _ & [-> | [-> ?]]);
    [done | by right].
Qed.

Lemma playTrack_playingHasTrack vol index (currentList : list Track) s :
  playingHasTrack s → playingHasTrack (playTrack vol index currentList s).
Proof.
  unfold playingHasTrack.
  destruct (playTrack_frame vol index currentList s) as (_ & _ & -> & [-> | [-> ?]]);
    [done | lia].
Qed.

(** The track that is current and not deleted is still the current one. *)
Lemma deleteSelected_keeps_current_track (s : State) :
  nonnegative (selectedIndices s) →
  0 ≤ currentIndex s → currentIndex s ∉ selectedIndices s →
  let s' := deleteSelectedTracks s in
  0 ≤ currentIndex s'
  ∧ playlist s' !! Z.to_nat (currentIndex s') = playlist s !! Z.to_nat (currentIndex s).
Proof.
  intros Hpos H0 Hnotin s'.
  destruct (currentIndex_after_delete s) as (_ & Hcur & _).
  destruct (deleteSelectedTracks_fields s) as (Hpl & _).
  fold s' in Hcur, Hpl.
  rewrite foldl_splice1_unselected in Hpl by done.
  rewrite Hcur by (done || lia). rewrite Hpl.
  rewrite size_below_selectedFrom by done.
  pose proof (selectedFrom_le (isSelected (selectedIndices s)) (Z.to_nat (currentIndex s)) 0).
  split; [lia|].
  replace (Z.to_nat (currentIndex s - _))
    with (Z.to_nat (currentIndex s)
          - selectedFrom (isSelected (selectedIndices s)) 0 (Z.to_nat (currentIndex s)))%nat
    by lia.
  apply unselected_lookup. simpl. unfold isSelected.
  apply bool_decide_eq_false_2. by rewrite Z2Nat.id.
Qed.

Lemma deleteSelected_indexInRange (s : State) :
  nonnegative (selectedIndices s) → indexInRange s →
  indexInRange (deleteSelectedTracks s).
Proof.
  destruct (currentIndex_after_delete s) as (H1 & _ & H3).
  intros Hpos [Hnone|Hin]; unfold indexInRange.
  - left. by apply H3.
  - destruct (decide (currentIndex s ∈ selectedIndices s)) as [Hsel|Hsel].
    + left. by apply H1.
    + right. destruct (deleteSelected_keeps_current_track s) as [H0 Hl]; [done|lia|done|].
      split; [done|].
      assert (is_Some (playlist s !! Z.to_nat (currentIndex s))) as Hsome.
      { apply lookup_lt_is_Some. unfold len in Hin. lia. }
      rewrite <- Hl in Hsome. apply lookup_lt_is_Some in Hsome. unfold len. lia.
Qed.

Lemma deleteSelected_playingHasTrack (s : State) :
  nonnegative (selectedIndices s) → indexInRange s → playingHasTrack s →
  currentIndex s ∉ selectedIndices s ∨ isPlaying s = false →
  playingHasTrack (deleteSelectedTracks s).
Proof.
  intros Hpos Hrange Hplay Hcase Hp.
  destruct (deleteSelectedTracks_fields s) as (_ & _ & _ & Hsame & _).
  rewrite Hsame in Hp. destruct Hcase as [Hnotin|Hfalse]; [|congruence].
  specialize (Hplay Hp). destruct Hrange as [|Hin]; [done|].
  destruct (deleteSelected_keeps_current_track s) as [H0 _]; [done|lia|done|lia].
Qed.

Lemma togglePlay_frame s :
  playlist (togglePlay s) = playlist s
  ∧ selectedIndices (togglePlay s) = selectedIndices s
  ∧ (indexInRange s → indexInRange (togglePlay s))
  ∧ (playingHasTrack s → playingHasTrack (togglePlay s)).
Proof.
  unfold togglePlay. destruct (isPlaying s) eqn:Hp.
  - repeat split; try done.
  - destruct ((currentIndex s =? -1) && (len (playlist s) >? 0)).
    + destruct (playTrack_frame (volume s) 0 (playlist s) s) as (? & ? & _).
      repeat split; try done.
      * apply playTrack_indexInRange.
      * apply playTrack_playingHasTrack.
    + repeat split; try done.
Qed.

Lemma onEnded_frame s :
  playlist (onEnded s) = playlist s
  ∧ selectedIndices (onEnded s) = selectedIndices s
  ∧ (indexInRange s → indexInRange (onEnded s))
  ∧ (playingHasTrack s → playingHasTrack (onEnded s)).
Proof.
  unfold onEnded.
  destruct ((currentIndex s <? 0) || (currentIndex s >=? len (playlist s)));
    [by repeat split|].
  destruct (currentIndex s + 1 <? len (playlist s)); [|by repeat split].
  destruct (playTrack_frame firstRenderVolume (currentIndex s + 1) (playlist s) s)
    as (? & ? & _).
  repeat split; try done.
  - apply playTrack_indexInRange.
  - apply playTrack_playingHasTrack.
Qed.

Lemma onDragDrop_frame dropped s :
  (∃ newTracks, playlist (onDragDrop dropped s) = playlist s ++ newTracks)
  ∧ selectedIndices (onDragDrop dropped s) = selectedIndices s
  ∧ (indexInRange s → indexInRange (onDragDrop dropped s))
  ∧ (playingHasTrack s → playingHasTrack (onDragDrop dropped s)).
Proof.
  unfold onDragDrop.
  destruct (List.filter _ dropped) as [|t new] eqn:Hf.
  - repeat split; try done. exists []. by rewrite app_nil_r.
  - set (updated := playlist s ++ t :: new).
    assert (Hgrow : indexInRange s → indexInRange (setPlaylist updated s)).
    { intros [?|?]; [by left|right]. simpl. unfold updated, len in *.
      rewrite length_app. lia. }
    destruct ((len (playlist s) =? 0) && (len updated >? 0)).
    + destruct (playTrack_frame firstRenderVolume 0 updated (setPlaylist updated s))
        as (Hpl & Hsel & _).
      repeat split.
      * exists (t :: new). by rewrite Hpl.
      * by rewrite Hsel.
      * intros Hs. apply (playTrack_indexInRange _ _ (setPlaylist updated s)). auto.
      * intros Hs. by apply playTrack_playingHasTrack.
    + repeat split; try done. by exists (t :: new).
Qed.

Lemma settle_frame k ok s :
  (indexInRange s → indexInRange (settle k ok s))
  ∧ (currentIndex s ≠ -1 → playingHasTrack (settle k ok s))
  ∧ (selectionInRange s → selectionInRange (settle k ok s)).
Proof.
  destruct (settle_currentIndex k ok s) as (Hc & Hp & Hs).
  unfold indexInRange, playingHasTrack, selectionInRange.
  rewrite Hc, Hp, Hs. split; [done|split; [by intros ? _|done]].
Qed.

Lemma selectionInRange_nonnegative s :
  selectionInRange s → nonnegative (selectedIndices s).
Proof. intros H d Hd. by apply H. Qed.

Lemma playTrack_selectionInRange vol index (currentList : list Track) s :
  selectionInRange s → selectionInRange (playTrack vol index currentList s).
Proof.
  unfold selectionInRange.
  by destruct (playTrack_frame vol index currentList s) as (-> & -> & _).
Qed.

Lemma handleKeyDown_wellFormed e s :
  indexInRange s → selectionInRange s →
  indexInRange (handleKeyDown e s) ∧ selectionInRange (handleKeyDown e s).
Proof.
  intros Hi Hs. unfold handleKeyDown.
  destruct (targetIsInput e); [done|].
  destruct ((metaKey e || ctrlKey e) && String.eqb (code e) "KeyA").
  { split; [done|]. intros d Hd. simpl in *.
    apply elem_of_list_to_set, elem_of_seqZ in Hd. lia. }
  destruct (String.eqb (code e) "Delete" || String.eqb (code e) "Backspace").
  { split.
    - by apply deleteSelected_indexInRange; [apply selectionInRange_nonnegative|].
    - intros d Hd. destruct (deleteSelectedTracks_fields s) as (_ & _ & Hsel & _).
      rewrite Hsel in Hd. by apply elem_of_empty in Hd. }
  destruct (String.eqb (code e) "Space").
  { destruct (togglePlay_frame s) as (Hp & Hsel & Hr & _).
    split; [by apply Hr|]. unfold selectionInRange. by rewrite Hp, Hsel. }
  repeat (match goal with |- context [if ?b then _ else _] => destruct b end);
    by split.
Qed.

(** Every event keeps the current index and the selection within the
    playlist. *)
Lemma handle_wellFormed e s :
  enabled e s → indexInRange s → selectionInRange s →
  indexInRange (handle e s) ∧ selectionInRange (handle e s).
Proof.
  intros He Hi Hs. destruct e as [dropped|index modifier| | | |k|t|v|t|d| |k ok|k]; simpl.
  - destruct (onDragDrop_frame dropped s) as ([new Hp] & Hsel & Hr & _).
    split; [by apply Hr|]. unfold selectionInRange. rewrite Hp, Hsel.
    intros d Hd. specialize (Hs d Hd). unfold len in *. rewrite length_app. lia.
  - unfold handlePlaylistItemClick. destruct modifier.
    + split; [done|]. intros d Hd. simpl in *.
      destruct (decide (index ∈ selectedIndices s)).
      * apply elem_of_difference in Hd as [Hd _]. by apply Hs.
      * apply elem_of_union in Hd as [Hd|Hd]; [by apply Hs|].
        apply elem_of_singleton in Hd. by subst d.
    + split.
      * apply (playTrack_indexInRange (volume s) index s Hi).
      * intros d Hd. simpl in Hd. by apply elem_of_empty in Hd.
  - unfold previousTrack. destruct (currentIndex s >? 0); [|done].
    split; [by apply playTrack_indexInRange | by apply playTrack_selectionInRange].
  - unfold nextTrack. destruct (currentIndex s <? len (playlist s) - 1); [|done].
    split; [by apply playTrack_indexInRange | by apply playTrack_selectionInRange].
  - destruct (togglePlay_frame s) as (Hp & Hsel & Hr & _).
    split; [by apply Hr|]. unfold selectionInRange. by rewrite Hp, Hsel.
  - by apply handleKeyDown_wellFormed.
  - done.
  - done.
  - done.
  - done.
  - destruct (onEnded_frame s) as (Hp & Hsel & Hr & _).
    split; [by apply Hr|]. unfold selectionInRange. by rewrite Hp, Hsel.
  - destruct (settle_frame k ok s) as (Hr & _ & Hsel). auto.
  - unfold timeout. by destruct (timers s !! k).
Qed.

Lemma reachable_wellFormed s :
  reachable s → indexInRange s ∧ selectionInRange s.
Proof.
  induction 1 as [|s e _ [Hi Hs] He].
  - split; [by left|]. intros d Hd. by apply elem_of_empty in Hd.
  - by apply handle_wellFormed.
Qed.

(** C2 (amended). After an append, a deletion of the selection, a
    [playTrack], a [togglePlay], an "ended" notification and the
    completion of any pending load, play or resume, [currentIndex] is [-1]
    or an index of the playlist.  "Playing implies a current track" is
    kept by append, [playTrack], [togglePlay] and "ended"; by a deletion
    when the current track is not selected or nothing is playing; and by a
    completion when [currentIndex] is not [-1] at that moment. *)
Theorem invariants_after_operations (s : State) :
  indexInRange s → nonnegative (selectedIndices s) →
  ((∀ dropped, indexInRange (onDragDrop dropped s))
   ∧ indexInRange (deleteSelectedTracks s)
   ∧ (∀ vol index, indexInRange (playTrack vol index (playlist s) s))
   ∧ indexInRange (togglePlay s)
   ∧ indexInRange (onEnded s)
   ∧ (∀ k ok, indexInRange (settle k ok s)))
  ∧ (playingHasTrack s →
     (∀ dropped, playingHasTrack (onDragDrop dropped s))
     ∧ (∀ vol index, playingHasTrack (playTrack vol index (playlist s) s))
     ∧ playingHasTrack (togglePlay s)
     ∧ playingHasTrack (onEnded s)
     ∧ (currentIndex s ∉ selectedIndices s ∨ isPlaying s = false →
        playingHasTrack (deleteSelectedTracks s))
     ∧ (∀ k ok, currentIndex s ≠ -1 → playingHasTrack (settle k ok s))).
Proof.
  intros Hi Hpos. split.
  - split; [intros dropped; by apply onDragDrop_frame|].
    split; [by apply deleteSelected_indexInRange|].
    split; [intros vol index; by apply playTrack_indexInRange|].
    split; [by apply togglePlay_frame|].
    split; [by apply onEnded_frame|].
    intros k ok. by apply settle_frame.
  - intros Hp.
    split; [intros dropped; by apply onDragDrop_frame|].
    split; [intros vol index; by apply playTrack_playingHasTrack|].
    split; [by apply togglePlay_frame|].
    split; [by apply onEnded_frame|].
    split; [by apply deleteSelected_playingHasTrack|].
    intros k ok. by apply settle_frame.
Qed.

(** The claim as written: after [deleteSelected] both invariants hold. *)
Lemma deleteSelected_breaks_playingHasTrack :
  ¬ (∀ s : State,
       indexInRange s → playingHasTrack s → selectionInRange s →
       indexInRange (deleteSelectedTracks s)
       ∧ playingHasTrack (deleteSelectedTracks s)).
Proof.
  intros H.
  destruct (reachable_wellFormed demoSelected) as [Hi Hs].
  { apply reachable_step; [apply demo_reachable|]. by vm_compute. }
  destruct (H demoSelected Hi) as [_ Hp]; [|done|].
  - intros _. by vm_compute.
  - apply Hp; by vm_compute.
Qed.

Lemma invariants_after_operations_witness :
  indexInRange (deleteSelectedTracks demoSelected)
  ∧ indexInRange (onEnded demoSelected).
Proof.
  assert (Hi : indexInRange demoSelected) by (right; by vm_compute).
  assert (Hpos : nonnegative (selectedIndices demoSelected)).
  { intros d Hd. change (d ∈ (∅ ∪ {[0]} : gset Z)) in Hd.
    apply elem_of_union in Hd as [Hd|Hd]; [by apply elem_of_empty in Hd|].
    apply elem_of_singleton in Hd. lia. }
  destruct (invariants_after_operations demoSelected Hi Hpos)
    as ((_ & H1 & _ & _ & H2 & _) & _).
  split; [exact H1 | exact H2].
Defined.

(** * Further properties *)

(** ** Strings *)

Lemma append_String (x : ascii) (a b : string) :
  (String x a +:+ b)%string = String x (a +:+ b).
Proof. reflexivity. Qed.

Lemma append_assoc (a b c : string) : ((a +:+ b) +:+ c = a +:+ (b +:+ c))%string.
Proof.
  induction a as [|x a IH]; [done|]. by rewrite !append_String, IH.
Qed.

Lemma append_nil_r (a : string) : (a +:+ "" = a)%string.
Proof. induction a as [|x a IH]; [done|]. by rewrite append_String, IH. Qed.

Lemma rev_app_append (s1 : string) : ∀ s2,
  String.rev_app s1 s2 = (String.rev_app s1 "" +:+ s2)%string.
Proof.
  induction s1 as [|c s1 IH]; intros s2; [done|]. simpl.
  rewrite (IH (String c s2)), (IH (String c "")).
  by rewrite append_assoc.
Qed.

Lemma rev_String c s : String.rev (String c s) = (String.rev s +:+ String c "")%string.
Proof. unfold String.rev. simpl. apply rev_app_append. Qed.

Lemma rev_append (a b : string) :
  String.rev (a +:+ b) = (String.rev b +:+ String.rev a)%string.
Proof.
  induction a as [|c a IH].
  - change ("" +:+ b)%string with b. by rewrite append_nil_r.
  - rewrite append_String, !rev_String, IH. by rewrite append_assoc.
Qed.

Lemma rev_involutive (s : string) : String.rev (String.rev s) = s.
Proof.
  induction s as [|c s IH]; [done|].
  rewrite rev_String, rev_append, IH. done.
Qed.

Lemma prefix_app (a : string) : ∀ b,
  String.prefix a b = true ↔ ∃ c, b = (a +:+ c)%string.
Proof.
  induction a as [|x a IH]; intros b.
  - split; [intros _; by exists b|]. intros _. by destruct b.
  - destruct b as [|y b]; simpl.
    + split; [done|]. by intros [c Hc].
    + destruct (ascii_dec x y) as [->|Hne].
      * rewrite IH. split; intros [c Hc]; exists c.
        -- by rewrite Hc.
        -- rewrite append_String in Hc. by injection Hc.
      * split; [done|]. intros [c Hc]. rewrite append_String in Hc.
        injection Hc as -> _. done.
Qed.

(** [s.endsWith(suffix)]: [s] is some string followed by [suffix]. *)
Lemma endsWith_app (s suffix : string) :
  endsWith s suffix = true ↔ ∃ pre, s = (pre +:+ suffix)%string.
Proof.
  unfold endsWith. rewrite prefix_app. split.
  - intros [c Hc]. exists (String.rev c).
    rewrite <- (rev_involutive s), Hc, rev_append. by rewrite rev_involutive.
  - intros [pre ->]. exists (String.rev pre). apply rev_append.
Qed.

Lemma toLowerCase_ascii_idemp (c : ascii) :
  toLowerCase_ascii (toLowerCase_ascii c) = toLowerCase_ascii c.
Proof. by destruct c as [[] [] [] [] [] [] [] []]. Qed.

Lemma toLowerCase_idemp (s : string) : toLowerCase (toLowerCase s) = toLowerCase s.
Proof.
  induction s as [|c s IH]; [done|]. simpl. by rewrite toLowerCase_ascii_idemp, IH.
Qed.

Lemma split_nonempty (sep : ascii) (s : string) : split sep s ≠ [].
Proof.
  destruct s as [|c s]; simpl; [done|].
  destruct (Ascii.eqb c sep); [done|]. by destruct (split sep s).
Qed.

(** The last segment of a string that ends with a separator followed by
    [e] is the last segment of [e]. *)
Lemma last_split_app (sep : ascii) (e d : string) (pre : string) :
  List.last (split sep (pre +:+ String sep e)) d = List.last (split sep e) d.
Proof.
  induction pre as [|c pre IH].
  - change ("" +:+ String sep e)%string with (String sep e). simpl.
    rewrite Ascii.eqb_refl.
    pose proof (split_nonempty sep e). by destruct (split sep e).
  - rewrite append_String. simpl. rewrite <- IH.
    pose proof (split_nonempty sep (pre +:+ String sep e)) as Hne.
    destruct (Ascii.eqb c sep).
    + by destruct (split sep (pre +:+ String sep e)).
    + destruct (split sep (pre +:+ String sep e)) as [|seg segs] eqn:E; [done|].
      destruct segs as [|seg' segs]; [|done].
      (* a single segment is impossible: the string contains a separator *)
      exfalso. clear IH Hne. revert seg E.
      induction pre as [|c' pre IH']; intros seg E.
      * change ("" +:+ String sep e)%string with (String sep e) in E. simpl in E.
        rewrite Ascii.eqb_refl in E. pose proof (split_nonempty sep e).
        by destruct (split sep e).
      * rewrite append_String in E. simpl in E.
        pose proof (split_nonempty sep (pre +:+ String sep e)).
        destruct (Ascii.eqb c' sep).
        -- by destruct (split sep (pre +:+ String sep e)).
        -- destruct (split sep (pre +:+ String sep e)) as [|s1 [|s2 ss]] eqn:E'; try done.
           by eapply IH'.
Qed.

(** X1. Every path accepted by [isValidAudioFile] ends, lower-cased, with a
    dot and a key of [mimeTypes], and [getMimeType] returns the entry of
    that key: for an accepted file the fallback is never taken for want of
    an entry. *)
Theorem getMimeType_of_valid_file (p : string) :
  isValidAudioFile p = true →
  ∃ e m, In (e, m) mimeTypes
         ∧ endsWith (toLowerCase p) ("." +:+ e) = true
         ∧ getMimeType p = m.
Proof.
  unfold isValidAudioFile. rewrite existsb_exists. intros (ext & Hin & Hends).
  assert (Hkey : ∃ e m, In (e, m) mimeTypes ∧ ext = ("." +:+ e)%string
                        ∧ split "." e = [e] ∧ assoc e mimeTypes = Some m).
  { simpl in Hin.
    repeat (destruct Hin as [<-|Hin];
            [eexists _, _; split; [|split; [reflexivity|split; reflexivity]];
             simpl; tauto|]).
    done. }
  destruct Hkey as (e & m & Hm & -> & Hsplit & Hassoc).
  exists e, m. split; [done|]. split; [done|].
  apply endsWith_app in Hends as [pre Hpre].
  unfold getMimeType. rewrite Hpre.
  change ("." +:+ e)%string with (String "." e).
  rewrite last_split_app, Hsplit. cbn [List.last]. by rewrite Hassoc.
Qed.

Lemma getMimeType_of_valid_file_witness :
  ∃ e m, In (e, m) mimeTypes
         ∧ endsWith (toLowerCase "Music/Song.FLAC") ("." +:+ e) = true
         ∧ getMimeType "Music/Song.FLAC" = m.
Proof. apply getMimeType_of_valid_file. reflexivity. Defined.

(** X2. Acceptance and MIME type depend on the lower-cased path only: a
    path and its lower-cased form are treated alike. *)
Theorem extension_check_ignores_case (p : string) :
  isValidAudioFile (toLowerCase p) = isValidAudioFile p
  ∧ getMimeType (toLowerCase p) = getMimeType p.
Proof.
  unfold isValidAudioFile, getMimeType. by rewrite toLowerCase_idemp.
Qed.

(** ** The platform effect of an event *)

Lemma playTrack_platformStep vol index s :
  platformStep s (playTrack vol index (playlist s) s).
Proof.
  unfold playTrack.
  destruct ((index <? 0) || (index >=? len (playlist s))); [by apply ps_quiet|].
  destruct (playlist s !! Z.to_nat index) as [t|] eqn:Hl; [|by apply ps_quiet].
  destruct (isValidAudioFile (path t)) eqn:Hv; simpl.
  - apply ps_load_started; unfold revokeCurrent; simpl;
      destruct (currentObjectUrlRef s) eqn:E; simpl; done.
  - apply (ps_rejected _ _ t); try done. simpl. by eapply list_elem_of_lookup_2.
Qed.

Lemma settle_platformStep k ok s : platformStep s (settle k ok s).
Proof.
  unfold settle. destruct (pending s !! k) as [[t vol| |]|]; [| | |by apply ps_quiet].
  - destruct ok; simpl.
    + by eapply ps_created.
    + by apply ps_failed.
  - destruct ok; simpl.
    + apply ps_cleared; try done. by left.
    + by apply ps_failed.
  - destruct ok; by apply ps_quiet.
Qed.

Lemma timeout_platformStep k s : platformStep s (timeout k s).
Proof.
  unfold timeout. destruct (timers s !! k) eqn:Hk; [|by apply ps_quiet].
  apply ps_cleared; try done. right. exists k. by split; [eexists|].
Qed.

Lemma togglePlay_platformStep s : platformStep s (togglePlay s).
Proof.
  unfold togglePlay. destruct (isPlaying s); [by apply ps_quiet|].
  destruct ((currentIndex s =? -1) && (len (playlist s) >? 0)).
  - apply playTrack_platformStep.
  - by apply ps_quiet.
Qed.

Lemma onEnded_platformStep s : platformStep s (onEnded s).
Proof.
  unfold onEnded.
  destruct ((currentIndex s <? 0) || (currentIndex s >=? len (playlist s)));
    [by apply ps_quiet|].
  destruct (currentIndex s + 1 <? len (playlist s)); [|by apply ps_quiet].
  apply playTrack_platformStep.
Qed.

Lemma deleteSelectedTracks_platformStep s : platformStep s (deleteSelectedTracks s).
Proof.
  unfold deleteSelectedTracks.
  destruct (decide (size (selectedIndices s) = 0%nat)); by apply ps_quiet.
Qed.

(** The platform side of [s0] is that of [s]. *)
Lemma platformStep_from s s0 s' :
  objectUrls s0 = objectUrls s → currentObjectUrlRef s0 = currentObjectUrlRef s →
  nextUrl s0 = nextUrl s → errorMessage s0 = errorMessage s →
  timers s0 = timers s →
  platformStep s0 s' → platformStep s s'.
Proof.
  intros Ho Hr Hn He Ht H.
  destruct H; rewrite ?Ho, ?Hr, ?Hn, ?He, ?Ht in *;
    [by apply ps_quiet | by apply ps_load_started
    | by eapply ps_rejected | by apply ps_failed | by eapply ps_created
    | by apply ps_cleared].
Qed.

(** A UI update after the step. *)
Lemma platformStep_to s s' s1 :
  objectUrls s1 = objectUrls s' → currentObjectUrlRef s1 = currentObjectUrlRef s' →
  nextUrl s1 = nextUrl s' → errorMessage s1 = errorMessage s' →
  timers s1 = timers s' → playlist s1 = playlist s' →
  platformStep s s' → platformStep s s1.
Proof.
  intros Ho Hr Hn He Ht Hp H.
  destruct H; [apply ps_quiet | apply ps_load_started
    | apply (ps_rejected _ _ t) | apply ps_failed | apply (ps_created _ _ b)
    | apply ps_cleared]; try congruence.
  by rewrite Ht.
Qed.

Lemma onDragDrop_platformStep dropped s : platformStep s (onDragDrop dropped s).
Proof.
  unfold onDragDrop. destruct (List.filter _ dropped) as [|t new]; [by apply ps_quiet|].
  set (updated := playlist s ++ t :: new).
  destruct ((len (playlist s) =? 0) && (len updated >? 0)); [|by apply ps_quiet].
  apply (platformStep_from s (setPlaylist updated s)); try done.
  apply (playTrack_platformStep firstRenderVolume 0 (setPlaylist updated s)).
Qed.

Lemma handleKeyDown_platformStep e s : platformStep s (handleKeyDown e s).
Proof.
  unfold handleKeyDown.
  destruct (targetIsInput e); [by apply ps_quiet|].
  destruct ((metaKey e || ctrlKey e) && String.eqb (code e) "KeyA"); [by apply ps_quiet|].
  destruct (String.eqb (code e) "Delete" || String.eqb (code e) "Backspace");
    [apply deleteSelectedTracks_platformStep|].
  destruct (String.eqb (code e) "Space"); [apply togglePlay_platformStep|].
  repeat (match goal with |- context [if ?b then _ else _] => destruct b end);
    by apply ps_quiet.
Qed.

Lemma handle_platformStep e s : platformStep s (handle e s).
Proof.
  destruct e as [dropped|index modifier| | | |k|t|v|t|d| |k ok|k]; simpl.
  - apply onDragDrop_platformStep.
  - unfold handlePlaylistItemClick. destruct modifier; [by apply ps_quiet|].
    eapply platformStep_to; [..|apply (playTrack_platformStep (volume s) index s)]; done.
  - unfold previousTrack. destruct (currentIndex s >? 0); [|by apply ps_quiet].
    apply playTrack_platformStep.
  - unfold nextTrack. destruct (currentIndex s <? len (playlist s) - 1);
      [|by apply ps_quiet].
    apply playTrack_platformStep.
  - apply togglePlay_platformStep.
  - apply handleKeyDown_platformStep.
  - by apply ps_quiet.
  - by apply ps_quiet.
  - by apply ps_quiet.
  - by apply ps_quiet.
  - apply onEnded_platformStep.
  - apply settle_platformStep.
  - apply timeout_platformStep.
Qed.

(** ** The playlist after an event *)

Lemma onDragDrop_playlist dropped s :
  playlist (onDragDrop dropped s)
  = playlist s ++ List.filter (fun t => isValidAudioFile (path t)) dropped.
Proof.
  unfold onDragDrop.
  destruct (List.filter _ dropped) as [|t new]; [by rewrite app_nil_r|].
  destruct (_ && _); [|done].
  by destruct (playTrack_frame firstRenderVolume 0 (playlist s ++ t :: new)
                 (setPlaylist (playlist s ++ t :: new) s)) as (-> & _).
Qed.

Lemma handleKeyDown_playlist e s :
  playlist (handleKeyDown e s) = playlist s
  ∨ playlist (handleKeyDown e s)
    = foldl (fun acc idx => splice1 idx acc) (playlist s)
        (indicesToDelete (selectedIndices s)).
Proof.
  unfold handleKeyDown.
  destruct (targetIsInput e); [by left|].
  destruct ((metaKey e || ctrlKey e) && String.eqb (code e) "KeyA"); [by left|].
  destruct (String.eqb (code e) "Delete" || String.eqb (code e) "Backspace").
  { right. by destruct (deleteSelectedTracks_fields s) as (-> & _). }
  destruct (String.eqb (code e) "Space").
  { left. by destruct (togglePlay_frame s) as (-> & _). }
  repeat (match goal with |- context [if ?b then _ else _] => destruct b end);
    by left.
Qed.

(** An event leaves the playlist as it is, appends the supported files of
    a drop, or removes the selected rows. *)
Lemma handle_playlist e s :
  playlist (handle e s) = playlist s
  ∨ (∃ dropped, playlist (handle e s)
       = playlist s ++ List.filter (fun t => isValidAudioFile (path t)) dropped)
  ∨ playlist (handle e s)
    = foldl (fun acc idx => splice1 idx acc) (playlist s)
        (indicesToDelete (selectedIndices s)).
Proof.
  destruct e as [dropped|index modifier| | | |k|t|v|t|d| |k ok|k]; simpl.
  - right; left. exists dropped. apply onDragDrop_playlist.
  - left. unfold handlePlaylistItemClick. destruct modifier; [done|]. simpl.
    by destruct (playTrack_frame (volume s) index (playlist s) s) as (-> & _).
  - left. unfold previousTrack. destruct (currentIndex s >? 0); [|done].
    by destruct (playTrack_frame (volume s) (currentIndex s - 1) (playlist s) s)
      as (-> & _).
  - left. unfold nextTrack. destruct (currentIndex s <? len (playlist s) - 1); [|done].
    by destruct (playTrack_frame (volume s) (currentIndex s + 1) (playlist s) s)
      as (-> & _).
  - left. by destruct (togglePlay_frame s) as (-> & _).
  - destruct (handleKeyDown_playlist k s) as [->| ->]; auto.
  - by left.
  - by left.
  - by left.
  - by left.
  - left. by destruct (onEnded_frame s) as (-> & _).
  - left. by destruct (settle_currentIndex k ok s) as (_ & -> & _).
  - left. unfold timeout. by destruct (timers s !! k).
Qed.

Lemma Forall_splice1 {A} (P : A → Prop) (idx : Z) (l : list A) :
  Forall P l → Forall P (splice1 idx l).
Proof.
  intros H. unfold splice1. apply Forall_app. split.
  - by apply Forall_take.
  - by apply Forall_drop.
Qed.

Lemma Forall_foldl_splice1 {A} (P : A → Prop) (ds : list Z) : ∀ l : list A,
  Forall P l → Forall P (foldl (fun acc idx => splice1 idx acc) l ds).
Proof.
  induction ds as [|d ds IH]; intros l H; [done|]. simpl.
  by apply IH, Forall_splice1.
Qed.

Lemma handle_supported e s :
  Forall supported (playlist s) → Forall supported (playlist (handle e s)).
Proof.
  intros H. destruct (handle_playlist e s) as [->|[[dropped ->]| ->]]; [done| |].
  - apply Forall_app. split; [done|].
    rewrite Forall_forall. intros t Ht. apply list_elem_of_In, filter_In in Ht.
    by destruct Ht.
  - by apply Forall_foldl_splice1.
Qed.

Lemma reachable_supported s :
  reachable s →
  Forall supported (playlist s)
  ∧ errorMessage s ≠ Some "Invalid audio file type"%string.
Proof.
  induction 1 as [|s e _ [Hs He] _]; [by split; [constructor|]|].
  pose proof (handle_supported e s Hs) as Hs'. split; [done|].
  destruct (handle_platformStep e s) as [_ _ _ H _|_ _ _ H _|t Ht Hv|_ _ _ H _
                                        |b _ _ _ H _|_ _ _ H _];
    rewrite ?H; try done.
  rewrite Forall_forall in Hs'. specialize (Hs' t Ht). unfold supported in Hs'.
  congruence.
Qed.

Lemma handle_urlsWellFormed e s : urlsWellFormed s → urlsWellFormed (handle e s).
Proof.
  intros [Hlt Hheld]. unfold urlsWellFormed.
  destruct (handle_platformStep e s) as [Ho Hr Hn _ _|Ho Hr Hn _ _|t _ _ Ho Hr Hn _ _
                                        |Ho Hr Hn _ _|b Ho Hr Hn _ _|Ho Hr Hn _ _];
    rewrite Ho, Hr, Hn; try done.
  - split; [|done]. intros u Hu. apply Hlt.
    destruct (currentObjectUrlRef s); [|done].
    apply lookup_delete_is_Some in Hu. by destruct Hu.
  - split.
    + intros u Hu. apply lookup_insert_is_Some in Hu as [<-|[_ Hu]]; [lia|].
      specialize (Hlt u Hu). lia.
    + intros u [= <-]. rewrite lookup_insert_eq. by eexists.
Qed.

Lemma handle_leaked u e s : leaked u s → leaked u (handle e s).
Proof.
  intros (Hlive & Hnot & Hlt). unfold leaked.
  destruct (handle_platformStep e s) as [Ho Hr Hn _ _|Ho Hr Hn _ _|t _ _ Ho Hr Hn _ _
                                        |Ho Hr Hn _ _|b Ho Hr Hn _ _|Ho Hr Hn _ _];
    rewrite Ho, Hr, Hn; try done.
  - split; [|done]. destruct (currentObjectUrlRef s) as [h|]; [|done].
    rewrite lookup_delete_ne; [done|]. by intros ->.
  - split; [|split; [|lia]].
    + rewrite lookup_insert_ne; [done|lia].
    + intros [= Heq]. lia.
Qed.

Lemma handle_error_has_timer e s :
  (errorMessage s ≠ None → timers s ≠ []) →
  errorMessage (handle e s) ≠ None → timers (handle e s) ≠ [].
Proof.
  intros H.
  destruct (handle_platformStep e s) as [_ _ _ He Ht|_ _ _ He Ht|t _ _ _ _ _ He Ht
                                        |_ _ _ He Ht|b _ _ _ He Ht|_ _ _ He Ht];
    rewrite He, ?Ht; try done.
  - intros _. by destruct (timers s).
  - intros _. by destruct (timers s).
Qed.

(** ** Invariants of the reachable states *)

Lemma overlapping_reachable : reachable overlapping.
Proof.
  apply (reachable_step _ (EvSettle 1 true)); [|exact I].
  apply (reachable_step _ (EvClick 2 false)); [|by vm_compute].
  apply (reachable_step _ (EvClick 1 false)); [|by vm_compute].
  apply demo_reachable.
Qed.

Lemma reachable_urlsWellFormed s : reachable s → urlsWellFormed s.
Proof.
  induction 1 as [|s e _ IH _].
  - split; intros u; simpl; [|done]. rewrite lookup_empty. by intros [? ?].
  - by apply handle_urlsWellFormed.
Qed.

(** X3. In every reachable state the current index is [-1] or a row of
    the playlist, and every selected index is a row of the playlist. *)
Theorem reachable_index_and_selection_in_range (s : State) :
  reachable s →
  (currentIndex s = -1 ∨ 0 ≤ currentIndex s < len (playlist s))
  ∧ (∀ d, d ∈ selectedIndices s → 0 ≤ d < len (playlist s)).
Proof. apply reachable_wellFormed. Qed.

Lemma reachable_index_and_selection_in_range_witness :
  (currentIndex overlapping = -1
   ∨ 0 ≤ currentIndex overlapping < len (playlist overlapping))
  ∧ (∀ d, d ∈ selectedIndices overlapping → 0 ≤ d < len (playlist overlapping)).
Proof.
  exact (reachable_index_and_selection_in_range overlapping overlapping_reachable).
Defined.

(** X4. In every reachable state all tracks of the playlist have a
    supported extension, and the message "Invalid audio file type" is not
    shown: tracks enter the playlist through the filter of the drop
    listener only. *)
Theorem reachable_playlist_is_supported (s : State) :
  reachable s →
  Forall (fun t => isValidAudioFile (path t) = true) (playlist s)
  ∧ errorMessage s ≠ Some "Invalid audio file type"%string.
Proof. apply reachable_supported. Qed.

Lemma reachable_playlist_is_supported_witness :
  Forall (fun t => isValidAudioFile (path t) = true) (playlist demo)
  ∧ errorMessage demo ≠ Some "Invalid audio file type"%string.
Proof. exact (reachable_playlist_is_supported demo demo_reachable). Defined.

(** X5. In every reachable state the object URL held by
    [currentObjectUrlRef] is live (created and not revoked), and every
    live URL is one that [createObjectURL] has returned. *)
Theorem reachable_held_url_is_live (s : State) :
  reachable s →
  (∀ u, currentObjectUrlRef s = Some u → is_Some (objectUrls s !! u))
  ∧ (∀ u, is_Some (objectUrls s !! u) → (u < nextUrl s)%nat).
Proof.
  intros H. destruct (reachable_urlsWellFormed s H) as [H1 H2]. by split.
Qed.

Lemma reachable_held_url_is_live_witness :
  (∀ u, currentObjectUrlRef demo = Some u → is_Some (objectUrls demo !! u))
  ∧ (∀ u, is_Some (objectUrls demo !! u) → (u < nextUrl demo)%nat).
Proof. exact (reachable_held_url_is_live demo demo_reachable). Defined.

(** X6. In every reachable state in which an error message is shown, a
    timer that clears it is pending. *)
Theorem reachable_error_message_has_timer (s : State) :
  reachable s → errorMessage s ≠ None →
  ∃ k ms, timers s !! k = Some ms ∧ errorMessage (timeout k s) = None.
Proof.
  intros H He.
  assert (Ht : timers s ≠ []).
  { revert He. induction H as [|s e _ IH _]; [done|].
    by apply handle_error_has_timer. }
  destruct (timers s) as [|ms ts] eqn:E; [done|].
  exists 0%nat, ms. split; [done|]. unfold timeout. by rewrite E.
Qed.

(** A failed load in [demo]. *)
Lemma failedDemo_reachable :
  reachable (handle (EvSettle 0 false) (handle (EvClick 1 false) demo)).
Proof.
  apply (reachable_step _ (EvSettle 0 false)); [|exact I].
  apply (reachable_step _ (EvClick 1 false)); [|by vm_compute].
  apply demo_reachable.
Qed.

Lemma reachable_error_message_has_timer_witness :
  ∃ k ms,
    timers (handle (EvSettle 0 false) (handle (EvClick 1 false) demo)) !! k = Some ms
    ∧ errorMessage (timeout k (handle (EvSettle 0 false) (handle (EvClick 1 false) demo)))
      = None.
Proof.
  apply (reachable_error_message_has_timer _ failedDemo_reachable).
  by vm_compute.
Defined.

(** ** Object URLs that are never released *)

Lemma run_leaked u (es : list Event) : ∀ s, leaked u s → leaked u (run es s).
Proof.
  induction es as [|e es IH]; intros s H; [done|].
  unfold run in *. simpl. by apply IH, handle_leaked.
Qed.

(** X7. When a read completes while an object URL is held, the URL held
    so far stays live and is never held again: no later event revokes it.
    (A URL is held while a read is pending only when loads overlap.) *)
Theorem completed_read_leaks_held_url (s : State) (k : nat) (t : Track) (v : Q)
    (h : nat) (es : list Event) :
  urlsWellFormed s →
  pending s !! k = Some (AwaitReadFile t v) →
  currentObjectUrlRef s = Some h →
  is_Some (objectUrls (run es (settle k true s)) !! h)
  ∧ currentObjectUrlRef (run es (settle k true s)) ≠ Some h.
Proof.
  intros [Hlt Hheld] Hk Hh.
  assert (Hleak : leaked h (settle k true s)).
  { specialize (Hheld h Hh). specialize (Hlt h Hheld).
    unfold settle, leaked. rewrite Hk. simpl.
    split; [|split; [|lia]].
    - rewrite lookup_insert_ne; [done|lia].
    - intros [= Heq]. lia. }
  destruct (run_leaked h es _ Hleak) as (H1 & H2 & _). by split.
Qed.

Lemma completed_read_leaks_held_url_witness :
  is_Some (objectUrls (run [EvSettle 0 true; EvSettle 0 true; EvEnded]
                         (settle 0 true overlapping)) !! 1%nat)
  ∧ currentObjectUrlRef (run [EvSettle 0 true; EvSettle 0 true; EvEnded]
                           (settle 0 true overlapping)) ≠ Some 1%nat.
Proof.
  assert (Hk : pending overlapping !! 0%nat = Some (AwaitReadFile trackB 1))
    by (by vm_compute).
  assert (Hh : currentObjectUrlRef overlapping = Some 1%nat) by (by vm_compute).
  exact (completed_read_leaks_held_url overlapping 0 trackB 1 1
           [EvSettle 0 true; EvSettle 0 true; EvEnded]
           (reachable_urlsWellFormed _ overlapping_reachable) Hk Hh).
Defined.

(** ** The drop listener *)

(** X8. A drop appends the supported files of the batch, in their order,
    after the tracks already there.  A batch without supported files
    changes nothing.  On a non-empty playlist only the playlist changes.
    On an empty playlist the first supported file becomes the current
    track and its file is requested. *)
Theorem onDragDrop_appends_supported (dropped : list Track) (s : State) :
  let new := List.filter (fun t => isValidAudioFile (path t)) dropped in
  playlist (onDragDrop dropped s) = playlist s ++ new
  ∧ (new = [] → onDragDrop dropped s = s)
  ∧ (playlist s ≠ [] → new ≠ [] →
     onDragDrop dropped s = setPlaylist (playlist s ++ new) s)
  ∧ (∀ t rest, playlist s = [] → new = t :: rest →
       currentIndex (onDragDrop dropped s) = 0
       ∧ pending (onDragDrop dropped s)
         = pending s ++ [AwaitReadFile t firstRenderVolume]).
Proof.
  intros new. split; [apply onDragDrop_playlist|]. subst new.
  split; [|split].
  - intros Hnil. unfold onDragDrop. by rewrite Hnil.
  - intros Hne Hnew. unfold onDragDrop.
    destruct (List.filter _ dropped) as [|t rest]; [done|].
    destruct (Z.eqb_spec (len (playlist s)) 0) as [H0|_]; [|done].
    unfold len in H0. by destruct (playlist s).
  - intros t rest Hnil Hnew.
    assert (Hv : isValidAudioFile (path t) = true).
    { assert (Hin : In t (List.filter (fun t => isValidAudioFile (path t)) dropped))
        by (rewrite Hnew; by left).
      by apply filter_In in Hin as [_ ?]. }
    unfold onDragDrop. rewrite Hnew, Hnil. simpl.
    destruct (playTrack_supported_fields firstRenderVolume 0
                (setPlaylist (t :: rest) s) t) as (Hc & Hpe & _); done.
Qed.

(** ** Deletion *)

Lemma unselected_all {A} (sel : nat → bool) (l : list A) : ∀ i,
  (∀ j, i ≤ j < i + length l → sel j = true)%nat → unselected sel i l = [].
Proof.
  induction l as [|x l IH]; intros i H; [done|]. simpl in *.
  rewrite H by lia. apply IH. intros j Hj. apply H. lia.
Qed.

(** X9. Deleting a selection of rows shortens the playlist by the number
    of selected rows. *)
Theorem deleteSelected_length (s : State) :
  selectionInRange s →
  length (playlist (deleteSelectedTracks s))
  = (length (playlist s) - size (selectedIndices s))%nat.
Proof.
  intros Hsel.
  destruct (deleteSelectedTracks_fields s) as (-> & _).
  rewrite foldl_splice1_unselected by (by apply selectionInRange_nonnegative).
  rewrite unselected_length. f_equal.
  rewrite <- size_filter_selectedFrom. f_equal.
  apply set_eq. intros d. rewrite elem_of_filter.
  split; [by intros [_ ?]|]. intros Hd. split; [|done].
  specialize (Hsel d Hd). unfold len in Hsel. lia.
Qed.

Lemma deleteSelected_length_witness :
  length (playlist (deleteSelectedTracks demoSelected))
  = (length (playlist demoSelected) - size (selectedIndices demoSelected))%nat.
Proof.
  apply deleteSelected_length.
  apply reachable_wellFormed.
  apply (reachable_step _ (EvClick 0 true)); [apply demo_reachable | by vm_compute].
Defined.

(** X10. A current track that is not deleted stays the current track: after
    the deletion [currentIndex] points at the same track. *)
Theorem current_track_survives_deletion (s : State) :
  nonnegative (selectedIndices s) →
  0 ≤ currentIndex s → currentIndex s ∉ selectedIndices s →
  0 ≤ currentIndex (deleteSelectedTracks s)
  ∧ playlist (deleteSelectedTracks s) !! Z.to_nat (currentIndex (deleteSelectedTracks s))
    = playlist s !! Z.to_nat (currentIndex s).
Proof. apply deleteSelected_keeps_current_track. Qed.

Lemma current_track_survives_deletion_witness :
  playlist (deleteSelectedTracks demoLastSelected)
    !! Z.to_nat (currentIndex (deleteSelectedTracks demoLastSelected))
  = playlist demoLastSelected !! Z.to_nat (currentIndex demoLastSelected).
Proof.
  apply current_track_survives_deletion.
  - intros d Hd. change (d ∈ (∅ ∪ {[0]} : gset Z)) in Hd.
    apply elem_of_union in Hd as [Hd|Hd]; [by apply elem_of_empty in Hd|].
    apply elem_of_singleton in Hd. lia.
  - by vm_compute.
  - by vm_compute.
Defined.

(** X11. Select-all followed by Delete or Backspace empties the playlist,
    resets [currentIndex] to [-1] and clears the selection; [isPlaying] is
    left as it was. *)
Theorem select_all_then_delete_empties (a d : KeyboardEvent) (s : State) :
  targetIsInput a = false → metaKey a || ctrlKey a = true →
  code a = "KeyA"%string →
  targetIsInput d = false →
  code d = "Delete"%string ∨ code d = "Backspace"%string →
  indexInRange s →
  let s' := handleKeyDown d (handleKeyDown a s) in
  playlist s' = [] ∧ currentIndex s' = -1 ∧ selectedIndices s' = ∅
  ∧ isPlaying s' = isPlaying s.
Proof.
  intros Ha Hmod Hca Hd Hcd Hi s'.
  set (all := list_to_set (seqZ 0 (len (playlist s))) : gset Z).
  assert (Hs1 : handleKeyDown a s = setSelectedIndices all s).
  { unfold handleKeyDown. by rewrite Ha, Hmod, Hca. }
  assert (Hs' : s' = deleteSelectedTracks (setSelectedIndices all s)).
  { subst s'. rewrite Hs1. unfold handleKeyDown. rewrite Hd.
    destruct Hcd as [-> | ->]; simpl; by rewrite andb_false_r. }
  assert (Hall : ∀ x, x ∈ all ↔ 0 ≤ x < len (playlist s)).
  { intros x. unfold all. rewrite elem_of_list_to_set, elem_of_seqZ. lia. }
  rewrite Hs'.
  destruct (deleteSelectedTracks_fields (setSelectedIndices all s))
    as (Hpl & _ & Hsel & Hplay & _).
  destruct (currentIndex_after_delete (setSelectedIndices all s)) as (H1 & _ & H3).
  simpl in *. split; [|split; [|by split]].
  - rewrite Hpl, foldl_splice1_unselected by (intros x Hx; apply Hall in Hx; lia).
    apply unselected_all. intros j Hj. unfold isSelected.
    apply bool_decide_eq_true_2, Hall. unfold len. lia.
  - destruct Hi as [Hnone|Hin]; [by apply H3|]. by apply H1, Hall.
Qed.

Lemma select_all_then_delete_empties_witness :
  playlist (handleKeyDown keyDelete (handleKeyDown keySelectAll demo)) = []
  ∧ currentIndex (handleKeyDown keyDelete (handleKeyDown keySelectAll demo)) = -1.
Proof.
  assert (Hi : indexInRange demo) by (right; by vm_compute).
  destruct (select_all_then_delete_empties keySelectAll keyDelete demo
              eq_refl eq_refl eq_refl eq_refl (or_introl eq_refl) Hi)
    as (H1 & H2 & _).
  by split.
Defined.

(** X12. A modified click on a row toggles its selection: two of them in a
    row restore the state. *)
Theorem toggle_selection_twice (index : Z) (s : State) :
  handlePlaylistItemClick index true (handlePlaylistItemClick index true s) = s.
Proof.
  destruct s as [ip pl ci ct du vo em sel ref ae ou nu rd pe ti].
  unfold handlePlaylistItemClick, updSelectedIndices, setSelectedIndices.
  simpl. f_equal.
  destruct (decide (index ∈ sel)) as [Hin|Hnotin].
  - rewrite decide_False.
    2:{ rewrite elem_of_difference, elem_of_singleton. by intros [_ ?]. }
    apply set_eq. intros x.
    rewrite elem_of_union, elem_of_difference, elem_of_singleton. split.
    + by intros [[? _]| ->].
    + intros Hx. destruct (decide (x = index)); [by right | by left].
  - rewrite decide_True.
    2:{ apply elem_of_union. right. by apply elem_of_singleton. }
    apply set_eq. intros x.
    rewrite elem_of_difference, elem_of_union, elem_of_singleton. split.
    + by intros [[?| ->] ?].
    + intros Hx. split; [by left | by intros ->].
Qed.

(** ** Transport *)

(** X13. The previous and next buttons stop at the ends: previous on the
    first track or without a current track, and next on the last track,
    change nothing.  Otherwise they make the neighbouring track the
    current one; next without a current track starts the first track. *)
Theorem previous_next_stop_at_ends (s : State) :
  (currentIndex s ≤ 0 → previousTrack s = s)
  ∧ (len (playlist s) - 1 ≤ currentIndex s → nextTrack s = s)
  ∧ (∀ t, 0 < currentIndex s →
       playlist s !! Z.to_nat (currentIndex s - 1) = Some t →
       isValidAudioFile (path t) = true →
       currentIndex (previousTrack s) = currentIndex s - 1)
  ∧ (∀ t, -1 ≤ currentIndex s →
       playlist s !! Z.to_nat (currentIndex s + 1) = Some t →
       isValidAudioFile (path t) = true →
       currentIndex (nextTrack s) = currentIndex s + 1).
Proof.
  split; [|split; [|split]].
  - intros H. unfold previousTrack.
    by destruct (Z.gtb_spec (currentIndex s) 0); [lia|].
  - intros H. unfold nextTrack.
    by destruct (Z.ltb_spec (currentIndex s) (len (playlist s) - 1)); [lia|].
  - intros t H Hl Hv. unfold previousTrack.
    destruct (Z.gtb_spec (currentIndex s) 0); [|lia].
    by destruct (playTrack_supported_fields (volume s) (currentIndex s - 1) s t)
      as (? & _); [lia|..].
  - intros t H Hl Hv. unfold nextTrack.
    pose proof (lookup_lt_Some _ _ _ Hl) as Hlt.
    destruct (Z.ltb_spec (currentIndex s) (len (playlist s) - 1));
      [|unfold len in *; lia].
    by destruct (playTrack_supported_fields (volume s) (currentIndex s + 1) s t)
      as (? & _); [lia|..].
Qed.

Lemma delete_last {A} (l : list A) (x : A) : delete (length l) (l ++ [x]) = l.
Proof. rewrite delete_middle. apply app_nil_r. Qed.

Lemma lookup_last {A} (l : list A) (x : A) : (l ++ [x]) !! length l = Some x.
Proof. by rewrite lookup_app_r, Nat.sub_diag by lia. Qed.

(** X14. Pausing and resuming a playing track does not load it again:
    [togglePlay] pauses at once; the next [togglePlay] asks the engine to
    play and waits; when the engine accepts, [isPlaying] is true again with
    the same current index, the same source and no file read; when it
    refuses, [isPlaying] stays false and no error message is set. *)
Theorem pause_then_resume (s : State) :
  isPlaying s = true → currentIndex s ≠ -1 →
  let paused := togglePlay s in
  let resuming := togglePlay paused in
  let resumed := settle (length (pending s)) true resuming in
  let refused := settle (length (pending s)) false resuming in
  isPlaying paused = false
  ∧ isPlaying resuming = false
  ∧ pending resuming = pending s ++ [AwaitResume]
  ∧ isPlaying resumed = true
  ∧ currentIndex resumed = currentIndex s
  ∧ AudioEngine.src (audioEngine resumed) = AudioEngine.src (audioEngine s)
  ∧ AudioEngine.calls (audioEngine resumed)
    = AudioEngine.calls (audioEngine s)
      ++ [AudioEngine.native_pause; AudioEngine.native_play]
  ∧ reads resumed = reads s
  ∧ objectUrls resumed = objectUrls s
  ∧ pending resumed = pending s
  ∧ isPlaying refused = false
  ∧ errorMessage refused = errorMessage s.
Proof.
  intros Hp Hc paused resuming resumed refused.
  assert (Hpaused : paused = s |> onAudioEngine AudioEngine.pause |> setIsPlaying false).
  { subst paused. unfold togglePlay. by rewrite Hp. }
  assert (Hres : resuming = paused |> onAudioEngine AudioEngine.play |> await AwaitResume).
  { subst resuming. rewrite Hpaused. unfold togglePlay. simpl.
    destruct (Z.eqb_spec (currentIndex s) (-1)); [done|]. done. }
  subst resumed refused. rewrite Hres, Hpaused. unfold settle, await. simpl.
  rewrite lookup_last. simpl. rewrite delete_last, <- app_assoc. done.
Qed.

Lemma pause_then_resume_witness :
  isPlaying (togglePlay demo) = false
  ∧ isPlaying (settle (length (pending demo)) true (togglePlay (togglePlay demo))) = true.
Proof.
  assert (Hp : isPlaying demo = true) by (by vm_compute).
  assert (Hc : currentIndex demo ≠ -1) by (by vm_compute).
  destruct (pause_then_resume demo Hp Hc) as (H1 & _ & _ & H2 & _).
  by split.
Defined.

(** X15. A plain click on a row whose file loads and plays: the row is the
    current track, [isPlaying] is true, no error is shown, the selection
    is empty; a new object URL holding the bytes of the file, typed by its
    extension, is the one held and the source of the engine; the engine
    volume is the UI volume, clamped. *)
Theorem click_plays_track (index : Z) (s : State) (t : Track) :
  0 ≤ index → playlist s !! Z.to_nat index = Some t →
  isValidAudioFile (path t) = true →
  let n := length (pending s) in
  let s3 := settle n true (settle n true (handlePlaylistItemClick index false s)) in
  currentIndex s3 = index ∧ isPlaying s3 = true ∧ errorMessage s3 = None
  ∧ selectedIndices s3 = ∅ ∧ playlist s3 = playlist s
  ∧ currentObjectUrlRef s3 = Some (nextUrl s)
  ∧ AudioEngine.src (audioEngine s3) = Some (nextUrl s)
  ∧ objectUrls s3 !! nextUrl s = Some (mkBlob (path t) (getMimeType (path t)))
  ∧ AudioEngine.volume (audioEngine s3) = Math_max 0 (Math_min 1 (volume s))
  ∧ pending s3 = pending s.
Proof.
  intros H0 Hl Hv n s3. subst s3 n. unfold handlePlaylistItemClick.
  rewrite (playTrack_supported _ _ _ _ _ H0 Hl Hv).
  unfold settle, await, revokeCurrent. simpl.
  destruct (currentObjectUrlRef s) as [h|]; simpl;
    rewrite lookup_last; simpl; rewrite delete_last; simpl;
    rewrite lookup_last; simpl; rewrite delete_last, lookup_insert_eq; done.
Qed.

Lemma click_plays_track_witness :
  currentIndex (settle 0 true (settle 0 true (handlePlaylistItemClick 1 false demo))) = 1
  ∧ isPlaying (settle 0 true (settle 0 true (handlePlaylistItemClick 1 false demo))) = true.
Proof.
  assert (H0 : 0 ≤ 1) by lia.
  assert (Hl : playlist demo !! Z.to_nat 1 = Some trackB) by (by vm_compute).
  assert (Hv : isValidAudioFile (path trackB) = true) by (by vm_compute).
  destruct (click_plays_track 1 demo trackB H0 Hl Hv) as (H1 & H2 & _).
  split; [exact H1 | exact H2].
Defined.

(** X16. A load that fails does not move the pointer back: after a failed
    read, and after a play that the engine refuses, [currentIndex] is the
    index asked for and [isPlaying] is false.  After a failed read nothing
    has been called on the engine, whose source is the previous one; after
    a refused play the new URL is held and loaded, "Failed to load audio
    file" is shown and a timer of 3000 ms is armed. *)
Theorem failed_load_keeps_new_index (vol : Q) (index : Z) (s : State) (t : Track) :
  0 ≤ index → playlist s !! Z.to_nat index = Some t →
  isValidAudioFile (path t) = true →
  let n := length (pending s) in
  let started := playTrack vol index (playlist s) s in
  let readFailed := settle n false started in
  let playRefused := settle n false (settle n true started) in
  (currentIndex readFailed = index ∧ isPlaying readFailed = false
   ∧ audioEngine readFailed = audioEngine s
   ∧ pending readFailed = pending s)
  ∧ (currentIndex playRefused = index ∧ isPlaying playRefused = false
     ∧ errorMessage playRefused = Some "Failed to load audio file"%string
     ∧ timers playRefused = timers s ++ [3000]
     ∧ currentObjectUrlRef playRefused = Some (nextUrl s)
     ∧ AudioEngine.src (audioEngine playRefused) = Some (nextUrl s)
     ∧ pending playRefused = pending s).
Proof.
  intros H0 Hl Hv n started readFailed playRefused.
  subst readFailed playRefused started n.
  rewrite (playTrack_supported _ _ _ _ _ H0 Hl Hv).
  unfold settle, await, revokeCurrent. simpl.
  destruct (currentObjectUrlRef s) as [h|]; simpl;
    rewrite lookup_last; simpl; rewrite delete_last; simpl;
    rewrite lookup_last; simpl; rewrite delete_last; done.
Qed.

Lemma failed_load_keeps_new_index_witness :
  currentIndex (settle 0 false (playTrack 1 2 (playlist demo) demo)) = 2
  ∧ isPlaying (settle 0 false (playTrack 1 2 (playlist demo) demo)) = false.
Proof.
  assert (H0 : 0 ≤ 2) by lia.
  assert (Hl : playlist demo !! Z.to_nat 2 = Some trackC) by (by vm_compute).
  assert (Hv : isValidAudioFile (path trackC) = true) by (by vm_compute).
  destruct (failed_load_keeps_new_index 1 2 demo trackC H0 Hl Hv) as ((H1 & H2 & _) & _).
  split; [exact H1 | exact H2].
Defined.

(** ** Volume *)

Lemma onEnded_next (s : State) :
  0 ≤ currentIndex s → currentIndex s + 1 < len (playlist s) →
  onEnded s = playTrack firstRenderVolume (currentIndex s + 1) (playlist s) s.
Proof.
  intros H0 H1. unfold onEnded.
  destruct (Z.ltb_spec (currentIndex s) 0); [lia|].
  destruct (Z.geb_spec (currentIndex s) (len (playlist s))); [lia|]. simpl.
  destruct (Z.ltb_spec (currentIndex s + 1) (len (playlist s))); [done|lia].
Qed.

(** X17. A load started by the "ended" handler or by the auto-start of a
    drop sets the engine volume to 1, the volume of the first render,
    whatever the UI volume is; the UI volume is not changed. *)
Theorem auto_advance_sets_full_volume (s : State) :
  (∀ t, 0 ≤ currentIndex s →
     playlist s !! Z.to_nat (currentIndex s + 1) = Some t →
     isValidAudioFile (path t) = true →
     let loaded := settle (length (pending s)) true (onEnded s) in
     AudioEngine.volume (audioEngine loaded) = 1%Q ∧ volume loaded = volume s)
  ∧ (∀ dropped t rest, playlist s = [] →
       List.filter (fun t => isValidAudioFile (path t)) dropped = t :: rest →
       let loaded := settle (length (pending s)) true (onDragDrop dropped s) in
       AudioEngine.volume (audioEngine loaded) = 1%Q ∧ volume loaded = volume s).
Proof.
  split.
  - intros t H0 Hl Hv loaded. subst loaded.
    rewrite onEnded_next; [|done|apply lookup_lt_Some in Hl; unfold len; lia].
    rewrite (playTrack_supported _ _ _ _ _ (ltac:(lia) : 0 ≤ currentIndex s + 1) Hl Hv).
    unfold settle, await, revokeCurrent. simpl.
    destruct (currentObjectUrlRef s); simpl; rewrite lookup_last; done.
  - intros dropped t rest Hnil Hnew loaded. subst loaded.
    assert (Hv : isValidAudioFile (path t) = true).
    { assert (Hin : In t (List.filter (fun t => isValidAudioFile (path t)) dropped))
        by (rewrite Hnew; by left).
      by apply filter_In in Hin as [_ ?]. }
    unfold onDragDrop. rewrite Hnew, Hnil. simpl.
    rewrite (playTrack_supported firstRenderVolume 0 (t :: rest)
               (setPlaylist (t :: rest) s) t); [|done..].
    unfold settle, await, revokeCurrent. simpl.
    destruct (currentObjectUrlRef s); simpl; rewrite lookup_last; done.
Qed.

Lemma auto_advance_sets_full_volume_witness :
  AudioEngine.volume (audioEngine demoQuiet) = 0.3%Q
  ∧ AudioEngine.volume
      (audioEngine (settle (length (pending demoQuiet)) true (onEnded demoQuiet))) = 1%Q
  ∧ volume (settle (length (pending demoQuiet)) true (onEnded demoQuiet)) = 0.3%Q.
Proof.
  assert (H0 : 0 ≤ currentIndex demoQuiet) by (by vm_compute).
  assert (Hl : playlist demoQuiet !! Z.to_nat (currentIndex demoQuiet + 1) = Some trackB)
    by (by vm_compute).
  assert (Hv : isValidAudioFile (path trackB) = true) by (by vm_compute).
  destruct (proj1 (auto_advance_sets_full_volume demoQuiet) trackB H0 Hl Hv) as [H1 H2].
  split; [by vm_compute|]. split; [exact H1|]. rewrite H2. by vm_compute.
Defined.

Lemma Math_min_1_cases (x : Q) :
  (Math_min 1 x = 1%Q ∧ (1 <= x)%Q) ∨ (Math_min 1 x = x ∧ (x < 1)%Q).
Proof.
  unfold Math_min. destruct (Qle_bool 1 x) eqn:E.
  - left. split; [done|]. by apply Qle_bool_iff.
  - right. split; [done|]. apply Qnot_le_lt. intros H.
    apply Qle_bool_iff in H. congruence.
Qed.

Lemma Math_max_0_cases (x : Q) :
  (Math_max 0 x = x ∧ (0 <= x)%Q) ∨ (Math_max 0 x = 0%Q ∧ (x < 0)%Q).
Proof.
  unfold Math_max. destruct (Qle_bool 0 x) eqn:E.
  - left. split; [done|]. by apply Qle_bool_iff.
  - right. split; [done|]. apply Qnot_le_lt. intros H.
    apply Qle_bool_iff in H. congruence.
Qed.

(** X18. From a volume in [[0,1]], ArrowUp and ArrowDown give a volume in
    [[0,1]] that is applied unchanged to the engine; ArrowUp does not
    lower it and ArrowDown does not raise it. *)
Theorem arrow_keys_keep_volume_in_range (e : KeyboardEvent) (s : State) :
  targetIsInput e = false →
  (0 <= volume s)%Q → (volume s <= 1)%Q →
  (code e = "ArrowUp"%string →
   let s' := handleKeyDown e s in
   (0 <= volume s')%Q ∧ (volume s' <= 1)%Q ∧ (volume s <= volume s')%Q
   ∧ AudioEngine.volume (audioEngine s') = volume s')
  ∧ (code e = "ArrowDown"%string →
     let s' := handleKeyDown e s in
     (0 <= volume s')%Q ∧ (volume s' <= 1)%Q ∧ (volume s' <= volume s)%Q
     ∧ AudioEngine.volume (audioEngine s') = volume s').
Proof.
  destruct e as [input meta ctrl c]. simpl. intros -> Hlo Hhi. split.
  - intros ->. unfold handleKeyDown. simpl. rewrite andb_false_r. simpl.
    destruct (Math_min_1_cases (volume s + 0.1)) as [[-> H]|[-> H]].
    + repeat split; try done.
    + destruct (Math_min_1_cases (volume s + 0.1)) as [[_ H']|[-> _]]; [lra|].
      destruct (Math_max_0_cases (volume s + 0.1)) as [[-> _]|[_ H']]; [|lra].
      repeat split; lra.
  - intros ->. unfold handleKeyDown. simpl. rewrite andb_false_r. simpl.
    destruct (Math_max_0_cases (volume s - 0.1)) as [[-> H]|[-> H]].
    + destruct (Math_min_1_cases (volume s - 0.1)) as [[_ H']|[-> _]]; [lra|].
      destruct (Math_max_0_cases (volume s - 0.1)) as [[-> _]|[_ H']]; [|lra].
      repeat split; lra.
    + repeat split; try done.
Qed.

Lemma arrow_keys_keep_volume_in_range_witness :
  (volume (handleKeyDown (mkKey false false false "ArrowUp") demo) <= 1)%Q.
Proof.
  assert (Hlo : (0 <= volume demo)%Q) by (by vm_compute).
  assert (Hhi : (volume demo <= 1)%Q) by (by vm_compute).
  destruct (arrow_keys_keep_volume_in_range (mkKey false false false "ArrowUp") demo
              eq_refl Hlo Hhi) as [H _].
  destruct (H eq_refl) as (_ & H1 & _). exact H1.
Defined.

(** ** Object URLs when loads do not overlap *)

(** X19. When every live object URL is the one held, a load that completes
    leaves exactly one live URL, that of the new track, and it is the one
    held; unmounting then leaves none. *)
Theorem sequential_load_keeps_one_url (vol : Q) (index : Z) (s : State) (t : Track) :
  onlyHeldIsLive s →
  0 ≤ index → playlist s !! Z.to_nat index = Some t →
  isValidAudioFile (path t) = true →
  let loaded := settle (length (pending s)) true (playTrack vol index (playlist s) s) in
  objectUrls loaded = {[ nextUrl s := mkBlob (path t) (getMimeType (path t)) ]}
  ∧ currentObjectUrlRef loaded = Some (nextUrl s)
  ∧ onlyHeldIsLive loaded
  ∧ objectUrls (unmount loaded) = ∅.
Proof.
  intros Hheld H0 Hl Hv loaded.
  assert (Hempty : objectUrls (revokeCurrent (setCurrentIndex index s)) = ∅).
  { apply map_eq. intros u. rewrite lookup_empty. unfold revokeCurrent. simpl.
    destruct (currentObjectUrlRef s) as [h|] eqn:Hr; simpl.
    - destruct (decide (u = h)) as [->|Hne]; [apply lookup_delete_eq|].
      rewrite lookup_delete_ne by done.
      destruct (objectUrls s !! u) eqn:Hu; [|done].
      assert (Some h = Some u) as [= ->]; [|done].
      rewrite <- Hr. apply Hheld. by eexists.
    - destruct (objectUrls s !! u) eqn:Hu; [|done].
      assert (@None nat = Some u); [|done].
      rewrite <- Hr. apply Hheld. by eexists. }
  assert (Hobj : objectUrls loaded
                 = {[ nextUrl s := mkBlob (path t) (getMimeType (path t)) ]}
                 ∧ currentObjectUrlRef loaded = Some (nextUrl s)).
  { subst loaded. rewrite (playTrack_supported _ _ _ _ _ H0 Hl Hv).
    destruct (revokeCurrent_fields (setCurrentIndex index s))
      as (_ & _ & _ & _ & _ & Hn & _ & Hp & _).
    unfold settle, await. simpl in *. rewrite Hp, lookup_last. simpl.
    rewrite Hempty, Hn. by rewrite insert_empty. }
  destruct Hobj as [Hobj Href]. split; [done|]. split; [done|]. split.
  - intros u Hu. rewrite Hobj in Hu. rewrite Href.
    apply lookup_singleton_is_Some in Hu. by subst u.
  - unfold unmount. rewrite Href. simpl. rewrite Hobj. apply delete_singleton_eq.
Qed.

Lemma sequential_load_keeps_one_url_witness :
  objectUrls (settle (length (pending demo)) true (playTrack 1 1 (playlist demo) demo))
  = {[ nextUrl demo := mkBlob (path trackB) (getMimeType (path trackB)) ]}.
Proof.
  assert (Hheld : onlyHeldIsLive demo).
  { assert (Ho : objectUrls demo = {[ 0%nat := mkBlob "A.mp3" "audio/mpeg" ]})
      by (by vm_compute).
    intros u Hu. rewrite Ho in Hu. apply lookup_singleton_is_Some in Hu.
    subst u. by vm_compute. }
  assert (H0 : 0 ≤ 1) by lia.
  assert (Hl : playlist demo !! Z.to_nat 1 = Some trackB) by (by vm_compute).
  assert (Hv : isValidAudioFile (path trackB) = true) by (by vm_compute).
  exact (proj1 (sequential_load_keeps_one_url 1 1 demo trackB Hheld H0 Hl Hv)).
Defined.

(** ** Media Session handlers *)




(** ** Tracks built from dropped paths *)

Lemma orElse_nonempty (a : option string) (b : string) :
  b ≠ EmptyString → orElse a b ≠ EmptyString.
Proof.
  intros Hb. unfold orElse. destruct a as [x|]; [|done].
  destruct (String.eqb_spec x ""); done.
Qed.

Lemma trackName_nonempty (p : string) : trackName p ≠ EmptyString.
Proof. by apply orElse_nonempty. Qed.

(** X21. The drop listener appends one track per supported path, in the
    order of the drop.  Each track keeps its path and has a non-empty
    title and a non-empty artist; without metadata the title is the name
    derived from the path and the artist is "Unknown Artist". *)
Theorem dropped_tracks_are_titled (paths : list string)
    (invoke : string → option AudioMetadata) (s : State) :
  playlist (onDropPaths paths invoke s)
  = playlist s ++ List.map (fun p => buildTrack p (invoke p))
                    (List.filter isValidAudioFile paths)
  ∧ (∀ p m, path (buildTrack p m) = p
            ∧ title (buildTrack p m) ≠ EmptyString
            ∧ (∃ a, artist (buildTrack p m) = Some a ∧ a ≠ EmptyString))
  ∧ (∀ p, title (buildTrack p None) = trackName p
          ∧ artist (buildTrack p None) = Some "Unknown Artist"%string).
Proof.
  split; [|split].
  - unfold onDropPaths. rewrite onDragDrop_playlist. f_equal.
    induction paths as [|p paths IH]; [done|]. simpl.
    destruct (isValidAudioFile p) eqn:Hp; simpl; [|done].
    by rewrite Hp, IH.
  - intros p m. split; [done|]. split.
    + apply orElse_nonempty, trackName_nonempty.
    + eexists. split; [done|]. by apply orElse_nonempty.
  - done.
Qed.

Lemma cutAtLastDot_app (stem ext : string) :
  contains "." ext = false →
  cutAtLastDot (stem +:+ String "." ext) = Some (stem, ext).
Proof.
  intros Hext.
  assert (Hnone : cutAtLastDot ext = None).
  { induction ext as [|c ext IH]; [done|]. simpl in *.
    apply orb_false_iff in Hext as [Hc Hext]. rewrite (IH Hext).
    by rewrite Hc. }
  induction stem as [|c stem IH].
  - change ("" +:+ String "." ext)%string with (String "." ext). simpl.
    by rewrite Hnone.
  - rewrite append_String. simpl. by rewrite IH.
Qed.

Lemma splitOn_nonempty (isSep : ascii → bool) (s : string) : splitOn isSep s ≠ [].
Proof.
  destruct s as [|c s]; simpl; [done|].
  destruct (isSep c); [done|]. by destruct (splitOn isSep s).
Qed.

Lemma splitOn_no_separator (isSep : ascii → bool) (s : string) :
  (∀ c, contains c s = true → isSep c = false) → splitOn isSep s = [s].
Proof.
  induction s as [|c s IH]; intros H; [done|]. simpl.
  rewrite (H c) by (simpl; by rewrite Ascii.eqb_refl).
  rewrite IH; [done|]. intros c' Hc'. apply H. simpl. rewrite Hc'. apply orb_true_r.
Qed.

Lemma last_splitOn_app (isSep : ascii → bool) (sep : ascii) (e d pre : string) :
  isSep sep = true →
  List.last (splitOn isSep (pre +:+ String sep e)) d = List.last (splitOn isSep e) d.
Proof.
  intros Hsep.
  assert (Htwo : ∀ pre, ∃ s1 s2 ss, splitOn isSep (pre +:+ String sep e) = s1 :: s2 :: ss).
  { clear pre. intros pre. induction pre as [|c pre (s1 & s2 & ss & IH)].
    - change ("" +:+ String sep e)%string with (String sep e). simpl. rewrite Hsep.
      pose proof (splitOn_nonempty isSep e).
      destruct (splitOn isSep e) as [|s2 ss]; [done|]. by eexists _, _, _.
    - rewrite append_String. simpl. rewrite IH.
      destruct (isSep c); by eexists _, _, _. }
  induction pre as [|c pre IH].
  - change ("" +:+ String sep e)%string with (String sep e). simpl. rewrite Hsep.
    pose proof (splitOn_nonempty isSep e). by destruct (splitOn isSep e).
  - rewrite append_String. simpl. rewrite <- IH.
    destruct (Htwo pre) as (s1 & s2 & ss & ->). by destruct (isSep c).
Qed.

(** X22. The name derived from a path is its file name without the last
    extension: for a path [dir/stem.ext] (or with a backslash) whose
    [stem.ext] holds no separator, with a non-empty [stem] and a
    non-empty extension without a dot, [trackName] is [stem]. *)
Theorem trackName_strips_directory_and_extension (dir stem ext : string) (sep : ascii) :
  isPathSeparator sep = true →
  (∀ c, contains c (stem +:+ String "." ext) = true → isPathSeparator c = false) →
  stem ≠ EmptyString → ext ≠ EmptyString → contains "." ext = false →
  trackName (dir +:+ String sep (stem +:+ String "." ext)) = stem.
Proof.
  intros Hsep Hfile Hstem Hext Hdot. unfold trackName.
  rewrite (last_splitOn_app isPathSeparator sep _ _ dir Hsep).
  rewrite (splitOn_no_separator _ _ Hfile). cbn [List.last].
  unfold stripExtension. rewrite (cutAtLastDot_app stem ext Hdot).
  assert (Hslash : contains "/" ext = false).
  { destruct (contains "/" ext) eqn:E; [|done].
    assert (isPathSeparator "/" = false); [|done].
    apply Hfile. clear -E. induction stem as [|c stem IH].
    - change ("" +:+ String "." ext)%string with (String "." ext). simpl. by rewrite E.
    - rewrite append_String. simpl. rewrite IH. apply orb_true_r. }
  rewrite Hslash.
  destruct (String.eqb_spec ext ""); [done|]. simpl.
  unfold orElse. by destruct (String.eqb_spec stem "").
Qed.

Lemma trackName_strips_directory_and_extension_witness :
  trackName "/home/me/Music/01 Intro.take2.flac" = "01 Intro.take2"%string.
Proof.
  apply (trackName_strips_directory_and_extension "/home/me/Music" "01 Intro.take2"
           "flac" "/"); try done.
  intros c Hc. cbv [append contains] in Hc. unfold isPathSeparator.
  repeat (apply orb_true_iff in Hc as [Hc|Hc];
          [apply Ascii.eqb_eq in Hc; by subst c|]).
  done.
Defined.

Lemma onDragDrop_appends_supported_witness :
  onDragDrop [track "cover.png"; track "notes.txt"] demo = demo.
Proof.
  destruct (onDragDrop_appends_supported [track "cover.png"; track "notes.txt"] demo)
    as (_ & H & _).
  apply H. reflexivity.
Defined.

Lemma previous_next_stop_at_ends_witness :
  previousTrack demo = demo ∧ nextTrack demoLast = demoLast.
Proof.
  destruct (previous_next_stop_at_ends demo) as (H1 & _).
  destruct (previous_next_stop_at_ends demoLast) as (_ & H2 & _).
  split; [apply H1 | apply H2]; by vm_compute.
Defined.
